(** * node-object-sync: an object kept in step with a file

    A shallow embedding of [src/index.ts] (class [ObjectSync]), of its twin
    [ObjectFile] and of [src/timer.ts] ([createLazyTimer]), with the parts
    of the JavaScript run time they rest on: ordinary objects with data
    properties, the [Reflect] operations, [JSON], the [fs] calls and the
    timer queue. *)

From Stdlib Require Import ZArith String Ascii List Bool Lia.
From stdpp Require Import base option gmap strings list pretty.

#[local] Set Warnings "-register-all".

Local Open Scope string_scope.
Local Open Scope list_scope.
Local Open Scope nat_scope.

(** ** Exceptions *)

Inductive errno := ENOENT | EEXIST | EISDIR | ENOTDIR | EACCES.

(** What a call can throw: a file system error, the errors of the language
    itself, or whatever a caller-supplied codec throws. *)
Inductive error :=
  | IOError (code : errno)
  | SyntaxError
  | TypeError
  | UserError (msg : string).

Inductive result (A : Type) :=
  | Ok (a : A)
  | Throw (e : error).
Arguments Ok {A} a.
Arguments Throw {A} e.

Definition is_IOError (e : error) : bool :=
  match e with IOError _ => true | _ => false end.

(** ** Values and objects *)

(** The values a property can hold.  Numbers are the integers and NaN;
    a nested record is held by value. *)
Inductive value :=
  | VUndefined
  | VNull
  | VBool (b : bool)
  | VNum (n : Z)
  | VNaN
  | VStr (s : string)
  | VObject (fields : list (string * value)).

(** A data property with its attributes. *)
Record property := {
  value_of : value;
  writable : bool;
  enumerable : bool;
  configurable : bool
}.

(** An ordinary object: its own properties in creation order, and whether
    new ones may be added.  Keys are names; nothing is inherited. *)
Record object := {
  props : list (string * property);
  extensible : bool
}.

(** The property made by a plain assignment or an object literal. *)
Definition data (v : value) : property :=
  {| value_of := v; writable := true; enumerable := true; configurable := true |}.

Definition literal (fields : list (string * value)) : object :=
  {| props := map (fun kv => (fst kv, data (snd kv))) fields; extensible := true |}.

Fixpoint assoc_lookup {A} (k : string) (l : list (string * A)) : option A :=
  match l with
  | [] => None
  | (k', a) :: r => if String.eqb k k' then Some a else assoc_lookup k r
  end.

Fixpoint assoc_update {A} (k : string) (a : A) (l : list (string * A)) : list (string * A) :=
  match l with
  | [] => []
  | (k', a') :: r =>
      if String.eqb k k' then (k', a) :: r else (k', a') :: assoc_update k a r
  end.

Fixpoint assoc_remove {A} (k : string) (l : list (string * A)) : list (string * A) :=
  match l with
  | [] => []
  | (k', a') :: r =>
      if String.eqb k k' then r else (k', a') :: assoc_remove k r
  end.

(** Insertion as [JSON.parse] and assignment do it: an existing key keeps
    its place, a new one goes last. *)
Definition assoc_set {A} (k : string) (a : A) (l : list (string * A)) : list (string * A) :=
  match assoc_lookup k l with
  | Some _ => assoc_update k a l
  | None => l ++ [(k, a)]
  end.

Definition with_value (p : property) (v : value) : property :=
  {| value_of := v; writable := writable p;
     enumerable := enumerable p; configurable := configurable p |}.

Definition with_props (o : object) (ps : list (string * property)) : object :=
  {| props := ps; extensible := extensible o |}.

(** *** The internal methods of an ordinary object

    What [Reflect.get], [Reflect.has], [Reflect.ownKeys], [Reflect.set]
    and [Reflect.deleteProperty] come to on an object with data properties
    only, for which the receiver does not matter. *)

Definition OrdinaryGet (o : object) (k : string) : value :=
  match assoc_lookup k (props o) with
  | Some p => value_of p
  | None => VUndefined
  end.

Definition OrdinaryHas (o : object) (k : string) : bool :=
  match assoc_lookup k (props o) with
  | Some _ => true
  | None => false
  end.

Definition OrdinaryOwnKeys (o : object) : list string :=
  map fst (props o).

(** [Reflect.set(target, prop, value)]: a read-only property refuses the
    value, and so does a missing property of an object that is not
    extensible; the object is then left as it was. *)
Definition OrdinarySet (o : object) (k : string) (v : value) : bool * object :=
  match assoc_lookup k (props o) with
  | Some p =>
      if writable p
      then (true, with_props o (assoc_update k (with_value p v) (props o)))
      else (false, o)
  | None =>
      if extensible o
      then (true, with_props o (props o ++ [(k, data v)]))
      else (false, o)
  end.

(** [Reflect.deleteProperty(target, prop)]: a property that is not
    configurable stays. *)
Definition OrdinaryDelete (o : object) (k : string) : bool * object :=
  match assoc_lookup k (props o) with
  | Some p =>
      if configurable p
      then (true, with_props o (assoc_remove k (props o)))
      else (false, o)
  | None => (true, o)
  end.

(** The enumerable own fields of an object, as a record value: what a
    deep comparison of two objects looks at. *)
Definition own_fields (o : object) : list (string * value) :=
  map (fun kp => (fst kp, value_of (snd kp)))
      (filter (fun kp => enumerable (snd kp) = true) (props o)).

(** ** The default codec *)

(** [JSON.stringify] and [JSON.parse] on the values above: [null], the
    booleans, whole numbers, strings and objects.  Strings are taken
    without control characters, so only the quote and the backslash are
    escaped.  [parse] covers the texts [stringify] writes and their
    variants in white space; fractions, exponents, arrays and the other
    escapes lie outside the values modelled, and its answer on such a
    text ([SyntaxError]) is not the run time's.  The properties below
    use it only on texts of the first kind, or hold for any codec. *)
Module JSON.

(** The double quote, and a way to write a text that has some: in
    [js "..."] an apostrophe stands for a double quote. *)
Definition dquote : ascii := Eval compute in ascii_of_nat 34.

Fixpoint js (s : string) : string :=
  match s with
  | EmptyString => EmptyString
  | String c r => String (if Ascii.eqb c "'"%char then dquote else c) (js r)
  end.

Fixpoint escape (cs : list ascii) : list ascii :=
  match cs with
  | [] => []
  | c :: r =>
      if Ascii.eqb c dquote then "\"%char :: dquote :: escape r
      else if Ascii.eqb c "\"%char then "\"%char :: "\"%char :: escape r
      else c :: escape r
  end.

Definition quote (s : string) : string :=
  String dquote (string_of_list_ascii (escape (list_ascii_of_string s)))
    +:+ String dquote EmptyString.

Fixpoint join (l : list string) : string :=
  match l with
  | [] => ""
  | [s] => s
  | s :: r => s +:+ "," +:+ join r
  end.

(** [None] stands for [undefined]: such a member is left out.  An object
    always has a text. *)
Fixpoint serialize (v : value) : option string :=
  match v with
  | VUndefined => None
  | VNull => Some "null"
  | VBool true => Some "true"
  | VBool false => Some "false"
  | VNum n => Some (pretty n)
  | VNaN => Some "null"
  | VStr s => Some (quote s)
  | VObject fields =>
      let fix members (l : list (string * value)) : list string :=
        match l with
        | [] => []
        | (k, v') :: r =>
            match serialize v' with
            | Some s => (quote k +:+ ":" +:+ s) :: members r
            | None => members r
            end
        end in
      Some ("{" +:+ join (members fields) +:+ "}")
  end.

Definition stringify (o : object) : result string :=
  match serialize (VObject (own_fields o)) with
  | Some s => Ok s
  | None => Throw TypeError
  end.

(** *** Parsing *)

Definition is_ws (c : ascii) : bool :=
  Ascii.eqb c " "%char || Ascii.eqb c "010"%char
  || Ascii.eqb c "013"%char || Ascii.eqb c "009"%char.

Fixpoint skip_ws (cs : list ascii) : list ascii :=
  match cs with
  | c :: r => if is_ws c then skip_ws r else cs
  | [] => []
  end.

Definition digit (c : ascii) : option Z :=
  let n := nat_of_ascii c in
  if (48 <=? n)%nat && (n <=? 57)%nat then Some (Z.of_nat (n - 48)) else None.

Fixpoint digits (acc : Z) (cs : list ascii) : Z * list ascii :=
  match cs with
  | c :: r =>
      match digit c with
      | Some d => digits (10 * acc + d)%Z r
      | None => (acc, cs)
      end
  | [] => (acc, [])
  end.

(** An integer literal: no leading zero before further digits. *)
Definition number (cs : list ascii) : option (Z * list ascii) :=
  match cs with
  | c :: r =>
      match digit c with
      | Some d =>
          match r with
          | c' :: _ =>
              match digit c' with
              | Some _ => if (d =? 0)%Z then None else Some (digits d r)
              | None => Some (d, r)
              end
          | [] => Some (d, r)
          end
      | None => None
      end
  | [] => None
  end.

(** The characters after an opening quote, up to the closing one.  A
    control character as it is makes the text ill-formed. *)
Fixpoint chars (cs : list ascii) : option (list ascii * list ascii) :=
  match cs with
  | [] => None
  | c :: r =>
      if Ascii.eqb c dquote then Some ([], r)
      else if (nat_of_ascii c <? 32)%nat then None
      else if Ascii.eqb c "\"%char then
        match r with
        | e :: r' =>
            if Ascii.eqb e dquote || Ascii.eqb e "\"%char then
              match chars r' with
              | Some (s, rest) => Some (e :: s, rest)
              | None => None
              end
            else None
        | [] => None
        end
      else
        match chars r with
        | Some (s, rest) => Some (c :: s, rest)
        | None => None
        end
  end.

Definition literal_at (word : string) (cs : list ascii) : option (list ascii) :=
  let w := list_ascii_of_string word in
  if decide (take (length w) cs = w) then Some (drop (length w) cs) else None.

Fixpoint value_at (fuel : nat) (cs : list ascii) : option (value * list ascii) :=
  match fuel with
  | O => None
  | S fuel' =>
      match skip_ws cs with
      | [] => None
      | c :: r =>
          if Ascii.eqb c "n"%char then
            option_map (pair VNull) (literal_at "ull" r)
          else if Ascii.eqb c "t"%char then
            option_map (pair (VBool true)) (literal_at "rue" r)
          else if Ascii.eqb c "f"%char then
            option_map (pair (VBool false)) (literal_at "alse" r)
          else if Ascii.eqb c dquote then
            match chars r with
            | Some (s, rest) => Some (VStr (string_of_list_ascii s), rest)
            | None => None
            end
          else if Ascii.eqb c "-"%char then
            match number r with
            | Some (n, rest) => Some (VNum (- n), rest)
            | None => None
            end
          else if Ascii.eqb c "{"%char then
            match skip_ws r with
            | c' :: r' =>
                if Ascii.eqb c' "}"%char then Some (VObject [], r')
                else members_at fuel' [] r
            | [] => None
            end
          else
            match number (c :: r) with
            | Some (n, rest) => Some (VNum n, rest)
            | None => None
            end
      end
  end
with members_at (fuel : nat) (acc : list (string * value)) (cs : list ascii)
  : option (value * list ascii) :=
  match fuel with
  | O => None
  | S fuel' =>
      match skip_ws cs with
      | q :: r =>
          if Ascii.eqb q dquote then
            match chars r with
            | Some (k, r1) =>
                match skip_ws r1 with
                | colon :: r2 =>
                    if Ascii.eqb colon ":"%char then
                      match value_at fuel' r2 with
                      | Some (v, r3) =>
                          let acc' := assoc_set (string_of_list_ascii k) v acc in
                          match skip_ws r3 with
                          | sep :: r4 =>
                              if Ascii.eqb sep ","%char then members_at fuel' acc' r4
                              else if Ascii.eqb sep "}"%char then Some (VObject acc', r4)
                              else None
                          | [] => None
                          end
                      | None => None
                      end
                    else None
                | [] => None
                end
            | None => None
            end
          else None
      | [] => None
      end
  end.

Definition parse (text : string) : result value :=
  let cs := list_ascii_of_string text in
  match value_at (S (length cs)) cs with
  | Some (v, rest) =>
      match skip_ws rest with
      | [] => Ok v
      | _ :: _ => Throw SyntaxError
      end
  | None => Throw SyntaxError
  end.

End JSON.


(** ** The file system *)

(** An absolute path, as the list of its components; the root is [[]]. *)
Abbreviation path := (list string).

(** [path.dirname]: the root is its own parent. *)
Definition dirname (p : path) : path := removelast p.

Inductive node :=
  | File (text : string)
  | Dir.

(** The tree of files and directories, and the entries that may not be
    written (a read-only file, a directory closed to new entries). *)
Record filesystem := {
  nodes : gmap path node;
  readonly : gset path
}.

Definition stat (d : filesystem) (p : path) : option node :=
  match p with
  | [] => Some Dir
  | _ => nodes d !! p
  end.

Definition exists_at (d : filesystem) (p : path) : bool :=
  match stat d p with Some _ => true | None => false end.

Definition put (d : filesystem) (p : path) (n : node) : filesystem :=
  {| nodes := <[p := n]> (nodes d); readonly := readonly d |}.

(** [fs.mkdirSync(p)] without the recursive flag: one level only. *)
Definition mkdir (d : filesystem) (p : path) : result filesystem :=
  match stat d p with
  | Some _ => Throw (IOError EEXIST)
  | None =>
      match stat d (dirname p) with
      | None => Throw (IOError ENOENT)
      | Some (File _) => Throw (IOError ENOTDIR)
      | Some Dir =>
          if decide (dirname p ∈ readonly d) then Throw (IOError EACCES)
          else Ok (put d p Dir)
      end
  end.

Definition read_file (d : filesystem) (p : path) : result string :=
  match stat d p with
  | None => Throw (IOError ENOENT)
  | Some Dir => Throw (IOError EISDIR)
  | Some (File text) => Ok text
  end.

(** Writing replaces the whole text of a file, or creates the file in a
    directory that is there.  A write that fails leaves the disk as it
    was. *)
Definition write_file (d : filesystem) (p : path) (text : string) : result filesystem :=
  match stat d p with
  | Some Dir => Throw (IOError EISDIR)
  | Some (File _) =>
      if decide (p ∈ readonly d) then Throw (IOError EACCES)
      else Ok (put d p (File text))
  | None =>
      match stat d (dirname p) with
      | None => Throw (IOError ENOENT)
      | Some (File _) => Throw (IOError ENOTDIR)
      | Some Dir =>
          if decide (dirname p ∈ readonly d) then Throw (IOError EACCES)
          else Ok (put d p (File text))
      end
  end.

(** ** Timers: [src/timer.ts] *)

Section Timers.

(** The state the callbacks act on. *)
Context {Σ : Type}.

Record timer := {
  timer_id : nat;
  deadline : nat;
  callback : Σ -> Σ
}.

(** The timer queue of the run time: a clock in milliseconds, the armed
    timers, and the record of the callbacks run so far, each with the
    instant it ran at and the timer it belonged to. *)
Record timers := {
  now : nat;
  next_id : nat;
  armed : list timer;
  fired : list (nat * nat)
}.

Definition no_timers : timers :=
  {| now := 0; next_id := 1; armed := []; fired := [] |}.

(** The timer is due [delay] milliseconds after it was armed; the delay
    is a whole number, within the range the run time takes as it is. *)
Definition setTimeout (cb : Σ -> Σ) (delay : nat) (q : timers) : nat * timers :=
  (next_id q,
   {| now := now q; next_id := S (next_id q);
      armed := armed q ++ [{| timer_id := next_id q; deadline := now q + delay; callback := cb |}];
      fired := fired q |}).

(** [clearTimeout(undefined)] and [clearTimeout] of a timer that has
    run do nothing. *)
Definition clearTimeout (id : option nat) (q : timers) : timers :=
  match id with
  | None => q
  | Some i =>
      {| now := now q; next_id := next_id q;
         armed := filter (fun t => timer_id t ≠ i) (armed q);
         fired := fired q |}
  end.

(** [createLazyTimer(time, callback)] returns a closure over its variable
    [timeout]; here the closure is the function from the variable and the
    queue before a call to the variable and the queue after it. *)
Definition createLazyTimer (time : nat) (callback : Σ -> Σ)
  : option nat * timers -> option nat * timers :=
  fun '(timeout, q) =>
    let q1 := clearTimeout timeout q in
    let '(id, q2) := setTimeout callback time q1 in
    (Some id, q2).

(** The armed timer that is due first at or before [t]; among timers due
    at the same instant, the one armed first. *)
Fixpoint next_due (t : nat) (l : list timer) : option timer :=
  match l with
  | [] => None
  | x :: r =>
      match next_due t r with
      | Some y =>
          if ((deadline x <=? t) && (deadline x <=? deadline y))%nat
          then Some x else Some y
      | None => if (deadline x <=? t)%nat then Some x else None
      end
  end.

Definition wait (t : nat) (q : timers) : timers :=
  {| now := Nat.max (now q) t; next_id := next_id q; armed := armed q; fired := fired q |}.

Definition fire (x : timer) (q : timers) : timers :=
  {| now := Nat.max (now q) (deadline x); next_id := next_id q;
     armed := filter (fun y => timer_id y ≠ timer_id x) (armed q);
     fired := fired q ++ [(Nat.max (now q) (deadline x), timer_id x)] |}.

Fixpoint run_timers (fuel : nat) (t : nat) (qs : timers * Σ) : timers * Σ :=
  match fuel with
  | O => (wait t (fst qs), snd qs)
  | S fuel' =>
      match next_due t (armed (fst qs)) with
      | Some x => run_timers fuel' t (fire x (fst qs), callback x (snd qs))
      | None => (wait t (fst qs), snd qs)
      end
  end.

(** Let the clock run up to [t], running every callback that falls due
    on the way.  A callback cannot arm a timer, so there are at most as
    many to run as are armed. *)
Definition advance (t : nat) (qs : timers * Σ) : timers * Σ :=
  run_timers (length (armed (fst qs))) t qs.

(** A caller of the trigger: calls at given instants. *)
Definition call_at (trigger : option nat * timers -> option nat * timers)
    (t : nat) (st : option nat * timers * Σ) : option nat * timers * Σ :=
  let '(timeout, q, s) := st in
  let '(q1, s1) := advance t (q, s) in
  let '(timeout', q2) := trigger (timeout, q1) in
  (timeout', q2, s1).

(** All the states a sequence of calls goes through. *)
Fixpoint call_trace (trigger : option nat * timers -> option nat * timers)
    (ts : list nat) (st : option nat * timers * Σ) : list (option nat * timers * Σ) :=
  match ts with
  | [] => [st]
  | t :: r => st :: call_trace trigger r (call_at trigger t st)
  end.

Definition calls_at (trigger : option nat * timers -> option nat * timers)
    (ts : list nat) (st : option nat * timers * Σ) : option nat * timers * Σ :=
  fold_left (fun st t => call_at trigger t st) ts st.

(** Calls that follow one another by less than [delay]. *)
Fixpoint burst (delay : nat) (t : nat) (ts : list nat) : Prop :=
  match ts with
  | [] => True
  | t' :: r => t <= t' /\ t' < t + delay /\ burst delay t' r
  end.

(** One timer is armed: the one the closure remembers, due at [due] and
    bound to [action]. *)
Definition pending (action : Σ -> Σ) (due : nat) (timeout : option nat) (q : timers) : Prop :=
  exists x,
    armed q = [x] /\ timeout = Some (timer_id x)
    /\ deadline x = due /\ callback x = action.

Definition armed_count (st : option nat * timers * Σ) : nat :=
  length (armed (snd (fst st))).

End Timers.

Arguments timer : clear implicits.
Arguments timers : clear implicits.

(** ** The program state *)

(** The calls the library makes on the file system, in order. *)
Inductive syscall :=
  | ExistsSync (p : path)
  | MkdirSync (p : path)
  | ReadFileSync (p : path)
  | WriteFileSync (p : path) (text : string)
  | WriteFile (p : path) (text : string).

(** The disk, the objects in memory (by address), the calls made so far,
    the asynchronous writes that were started and have not settled yet
    (oldest first), and the rejections of promises nobody handles. *)
Record world := {
  fs : filesystem;
  heap : gmap nat object;
  calls : list syscall;
  inflight : list (path * string);
  unhandled : list error
}.

Definition set_fs (d : filesystem) (w : world) : world :=
  {| fs := d; heap := heap w; calls := calls w;
     inflight := inflight w; unhandled := unhandled w |}.

Definition set_heap (h : gmap nat object) (w : world) : world :=
  {| fs := fs w; heap := h; calls := calls w;
     inflight := inflight w; unhandled := unhandled w |}.

Definition log_call (c : syscall) (w : world) : world :=
  {| fs := fs w; heap := heap w; calls := calls w ++ [c];
     inflight := inflight w; unhandled := unhandled w |}.

Definition set_inflight (l : list (path * string)) (w : world) : world :=
  {| fs := fs w; heap := heap w; calls := calls w;
     inflight := l; unhandled := unhandled w |}.

Definition reject (e : error) (w : world) : world :=
  {| fs := fs w; heap := heap w; calls := calls w;
     inflight := inflight w; unhandled := unhandled w ++ [e] |}.

(** A computation that may throw; the state it reached is kept when it
    does. *)
Definition M (Σ A : Type) : Type := Σ -> result A * Σ.

Definition ret {Σ A} (a : A) : M Σ A := fun σ => (Ok a, σ).

Definition throw {Σ A} (e : error) : M Σ A := fun σ => (Throw e, σ).

Definition bind {Σ A B} (m : M Σ A) (k : A -> M Σ B) : M Σ B :=
  fun σ =>
    match m σ with
    | (Ok a, σ') => k a σ'
    | (Throw e, σ') => (Throw e, σ')
    end.

Notation "x <- m ;; k" := (bind m (fun x => k))
  (at level 100, m at next level, right associativity).

(** The result of a pure call that may throw. *)
Definition call {Σ A} (r : result A) : M Σ A := fun σ => (r, σ).

(** *** The [fs] calls *)

Definition existsSync (p : path) : M world bool :=
  fun w => (Ok (exists_at (fs w) p), log_call (ExistsSync p) w).

Definition mkdirSync (p : path) : M world unit :=
  fun w =>
    match mkdir (fs w) p with
    | Ok d => (Ok tt, set_fs d (log_call (MkdirSync p) w))
    | Throw e => (Throw e, log_call (MkdirSync p) w)
    end.

Definition readFileSync (p : path) : M world string :=
  fun w => (read_file (fs w) p, log_call (ReadFileSync p) w).

Definition writeFileSync (p : path) (text : string) : M world unit :=
  fun w =>
    match write_file (fs w) p text with
    | Ok d => (Ok tt, set_fs d (log_call (WriteFileSync p text) w))
    | Throw e => (Throw e, log_call (WriteFileSync p text) w)
    end.

(** [fsp.writeFile]: the write is started and the call returns. *)
Definition writeFile (p : path) (text : string) (w : world) : world :=
  set_inflight (inflight w ++ [(p, text)]) (log_call (WriteFile p text) w).

(** The [i]-th write in flight settles: it lands on the disk as it is
    then, or fails; [saveAsync] resumes after its [await], and its
    [catch {}] drops the failure. *)
Definition settle (i : nat) (w : world) : world :=
  match inflight w !! i with
  | None => w
  | Some (p, text) =>
      let w1 := set_inflight (delete i (inflight w)) w in
      match write_file (fs w) p text with
      | Ok d => set_fs d w1
      | Throw _ => w1
      end
  end.

(** *** [Reflect] on an object in memory *)

Definition Reflect_get (l : nat) (k : string) : M world value :=
  fun w =>
    match heap w !! l with
    | Some o => (Ok (OrdinaryGet o k), w)
    | None => (Throw TypeError, w)
    end.

Definition Reflect_has (l : nat) (k : string) : M world bool :=
  fun w =>
    match heap w !! l with
    | Some o => (Ok (OrdinaryHas o k), w)
    | None => (Throw TypeError, w)
    end.

Definition Reflect_ownKeys (l : nat) : M world (list string) :=
  fun w =>
    match heap w !! l with
    | Some o => (Ok (OrdinaryOwnKeys o), w)
    | None => (Throw TypeError, w)
    end.

(** The object at [l] becomes [o]. *)
Definition store (l : nat) (o : object) (w : world) : world :=
  set_heap (<[l := o]> (heap w)) w.

Definition Reflect_set (l : nat) (k : string) (v : value) : M world bool :=
  fun w =>
    match heap w !! l with
    | Some o => (Ok (fst (OrdinarySet o k v)), store l (snd (OrdinarySet o k v)) w)
    | None => (Throw TypeError, w)
    end.

Definition Reflect_deleteProperty (l : nat) (k : string) : M world bool :=
  fun w =>
    match heap w !! l with
    | Some o => (Ok (fst (OrdinaryDelete o k)), store l (snd (OrdinaryDelete o k)) w)
    | None => (Throw TypeError, w)
    end.

(** ** The class [ObjectSync]: [src/index.ts] *)

Record format := {
  fmt_stringify : object -> result string;
  fmt_parse : string -> result value
}.

(** [save?: 'sync' | 'async' | number] *)
Inductive save_setting :=
  | sync
  | async
  | millis (ms : nat).

(** [SyncedObjectSettings]; [None] is an option left out. *)
Record SyncedObjectSettings := {
  s_recursive : option bool;
  s_format : option format;
  s_save : option save_setting
}.

(** Which method the field [save] is bound to. *)
Inductive save_method :=
  | the_saveSync
  | the_saveAsync
  | the_timerCall.

(** What the field [content] holds: a reference to an object, or a value
    that is not an object (a codec may parse a text to one). *)
Inductive reference :=
  | Ref (l : nat)
  | NotObject (v : value).

Record ObjectSync := {
  fileLocation : path;
  content : reference;
  recursive : bool;
  stringify : object -> result string;
  parse : string -> result value;
  timerDelay : nat;
  save : save_method
}.

(** The program state with its timer queue and the variable [timeout] of
    the closure [timerCall]. *)
Record state := {
  mem : world;
  queue : timers world;
  timeout : option nat
}.

Definition start (w : world) : state :=
  {| mem := w; queue := no_timers; timeout := None |}.

Definition with_mem (w : world) (st : state) : state :=
  {| mem := w; queue := queue st; timeout := timeout st |}.

Definition lift {A} (m : M world A) : M state A :=
  fun st =>
    let '(r, w) := m (mem st) in
    (r, with_mem w st).

(** The value a parser returned, as the run time holds it: an object is
    new in memory. *)
Definition allocate (v : value) : M world reference :=
  match v with
  | VObject fields =>
      fun w =>
        let l := fresh (dom (heap w)) in
        (Ok (Ref l), set_heap (<[l := literal fields]> (heap w)) w)
  | _ => ret (NotObject v)
  end.

(** [this.stringify(this.content)].  The content is an object whenever a
    save runs: [wrap] hands out no view otherwise. *)
Definition stringify_content (self : ObjectSync) : M world string :=
  fun w =>
    match content self with
    | Ref l =>
        match heap w !! l with
        | Some o => (stringify self o, w)
        | None => (Throw TypeError, w)
        end
    | NotObject _ => (Throw TypeError, w)
    end.

Definition saveSync (self : ObjectSync) : M world unit :=
  text <- stringify_content self ;;
  writeFileSync (fileLocation self) text.

(** An [async] function never throws at its caller: what [stringify]
    throws rejects the promise it returned, which nobody holds; what the
    write throws is caught when the write settles (see [settle]). *)
Definition saveAsync (self : ObjectSync) (w : world) : world :=
  match stringify_content self w with
  | (Ok text, w1) => writeFile (fileLocation self) text w1
  | (Throw e, w1) => reject e w1
  end.

(** [this.timerCall = createLazyTimer(..., () => this.saveAsync())] *)
Definition timerCall (self : ObjectSync) (st : state) : state :=
  let '(t, q) := createLazyTimer (timerDelay self) (saveAsync self) (timeout st, queue st) in
  {| mem := mem st; queue := q; timeout := t |}.

(** [self.save()] *)
Definition call_save (self : ObjectSync) : M state unit :=
  match save self with
  | the_saveSync => lift (saveSync self)
  | the_saveAsync => fun st => (Ok tt, with_mem (saveAsync self (mem st)) st)
  | the_timerCall => fun st => (Ok tt, timerCall self st)
  end.

(** The settings with their defaults, as the constructor reads them. *)
Definition recursive_of (settings : SyncedObjectSettings) : bool :=
  match s_recursive settings with Some b => b | None => false end.

Definition parse_of (settings : SyncedObjectSettings) : string -> result value :=
  match s_format settings with Some f => fmt_parse f | None => JSON.parse end.

Definition stringify_of (settings : SyncedObjectSettings) : object -> result string :=
  match s_format settings with Some f => fmt_stringify f | None => JSON.stringify end.

Definition delay_of (settings : SyncedObjectSettings) : nat :=
  match s_save settings with Some (millis n) => n | _ => 1000 end.

Definition method_of (settings : SyncedObjectSettings) : save_method :=
  match s_save settings with
  | Some async => the_saveAsync
  | Some (millis _) => the_timerCall
  | _ => the_saveSync
  end.

Definition with_content (this : ObjectSync) (c : reference) (m : save_method) : ObjectSync :=
  {| fileLocation := fileLocation this;
     content := c;
     recursive := recursive this;
     parse := parse this;
     stringify := stringify this;
     timerDelay := timerDelay this;
     save := m |}.

(** The instance as the first lines of the constructor set it up; the
    field [save] starts as [saveSync]. *)
Definition fresh_instance (tgt : nat) (fileLoc : path) (settings : SyncedObjectSettings)
  : ObjectSync :=
  {| fileLocation := fileLoc;
     content := Ref tgt;
     recursive := recursive_of settings;
     parse := parse_of settings;
     stringify := stringify_of settings;
     timerDelay := delay_of settings;
     save := the_saveSync |}.

(** The private constructor. *)
Definition construct (tgt : nat) (fileLoc : path) (settings : SyncedObjectSettings)
  : M world ObjectSync :=
  let this := fresh_instance tgt fileLoc settings in
  exist <- existsSync fileLoc ;;
  (* Ensure parent dir *)
  _ <- (if recursive this && negb exist then
          parent <- existsSync (dirname fileLoc) ;;
          if negb parent then mkdirSync (dirname fileLoc) else ret tt
        else ret tt) ;;
  (* Sync content *)
  c <- (if exist then
          text <- readFileSync fileLoc ;;
          v <- call (parse this text) ;;
          allocate v
        else
          text <- stringify_content this ;;
          _ <- writeFileSync fileLoc text ;;
          ret (content this)) ;;
  (* Set save method *)
  ret (with_content this c (method_of settings)).

(** The view handed to the caller: a [Proxy] on the content, its handler
    closed over the instance. *)
Record Proxy := {
  target : nat;
  self : ObjectSync
}.

(** [ObjectSync.wrap(target, fileLocation, settings)] *)
Definition wrap (tgt : nat) (fileLoc : path) (settings : SyncedObjectSettings)
  : M world Proxy :=
  this <- construct tgt fileLoc settings ;;
  match content this with
  | Ref l => ret {| target := l; self := this |}
  | NotObject _ => throw TypeError
  end.

(** *** The traps of the handler

    Each trap with the answer it gives; what an assignment or a [delete]
    makes of the answer [false] is left to the caller's code. *)

Module handler.

Definition get (view : Proxy) (prop : string) : M state value :=
  lift (Reflect_get (target view) prop).

Definition has (view : Proxy) (prop : string) : M state bool :=
  lift (Reflect_has (target view) prop).

Definition ownKeys (view : Proxy) : M state (list string) :=
  lift (Reflect_ownKeys (target view)).

Definition set (view : Proxy) (prop : string) (v : value) : M state bool :=
  wasSet <- lift (Reflect_set (target view) prop v) ;;
  _ <- call_save (self view) ;;
  ret wasSet.

Definition deleteProperty (view : Proxy) (prop : string) : M state bool :=
  wasDeleted <- lift (Reflect_deleteProperty (target view) prop) ;;
  _ <- call_save (self view) ;;
  ret wasDeleted.

End handler.

(** ** The class [ObjectFile]

    The second entry point of the package has the same constructor, the
    same save methods and the same traps, line for line; it takes the path
    and the default content from its settings. *)
Module ObjectFile.

Record ObjectFileSettings := {
  fileLocation : path;
  defaultContent : nat;
  recursive : option bool;
  format : option format;
  save : option save_setting
}.

Definition shared (settings : ObjectFileSettings) : SyncedObjectSettings :=
  {| s_recursive := recursive settings;
     s_format := format settings;
     s_save := save settings |}.

(** [ObjectFile.create(settings)] *)
Definition create (settings : ObjectFileSettings) : M world Proxy :=
  wrap (defaultContent settings) (fileLocation settings) (shared settings).

End ObjectFile.

(** *** What happens between two calls *)

(** A write in flight settles. *)
Definition settled (i : nat) (st : state) : state :=
  with_mem (settle i (mem st)) st.

(** The clock reaches [t]. *)
Definition elapse (t : nat) (st : state) : state :=
  let '(q, w) := advance t (queue st, mem st) in
  {| mem := w; queue := q; timeout := timeout st |}.

(** *** Sequences of mutations *)

Inductive mutation :=
  | Assign (prop : string) (v : value)
  | Remove (prop : string).

Definition mutate (view : Proxy) (m : mutation) : M state bool :=
  match m with
  | Assign prop v => handler.set view prop v
  | Remove prop => handler.deleteProperty view prop
  end.

(** What a mutation does to the object itself. *)
Definition apply_mutation (m : mutation) (o : object) : bool * object :=
  match m with
  | Assign prop v => OrdinarySet o prop v
  | Remove prop => OrdinaryDelete o prop
  end.

Fixpoint mutate_all (view : Proxy) (ms : list mutation) : M state unit :=
  match ms with
  | [] => ret tt
  | m :: r => _ <- mutate view m ;; mutate_all view r
  end.

(** The text of the file the instance writes to, and the object it holds. *)
Definition file_text (this : ObjectSync) (w : world) : option string :=
  match stat (fs w) (fileLocation this) with
  | Some (File text) => Some text
  | _ => None
  end.

Definition live (this : ObjectSync) (w : world) : option object :=
  match content this with
  | Ref l => heap w !! l
  | NotObject _ => None
  end.

(** The file holds what the codec parses back to the live object. *)
Definition parses_to_live (this : ObjectSync) (w : world) : Prop :=
  ∃ text o,
    file_text this w = Some text
    ∧ live this w = Some o
    ∧ parse this text = Ok (VObject (own_fields o)).

(** *** Worlds to try the definitions on *)

Definition no_settings : SyncedObjectSettings :=
  {| s_recursive := None; s_format := None; s_save := None |}.

Definition saving (how : save_setting) : SyncedObjectSettings :=
  {| s_recursive := None; s_format := None; s_save := Some how |}.

Definition recursively : SyncedObjectSettings :=
  {| s_recursive := Some true; s_format := None; s_save := None |}.

Definition disk (l : list (path * node)) : filesystem :=
  {| nodes := list_to_map l; readonly := ∅ |}.

(** [Object.freeze] of an object literal. *)
Definition frozen (fields : list (string * value)) : object :=
  {| props := map (fun kv => (fst kv,
                     {| value_of := snd kv; writable := false;
                        enumerable := true; configurable := false |})) fields;
     extensible := false |}.

(** One object in memory, at address 1, and nothing under way. *)
Definition holding (d : filesystem) (o : object) : world :=
  {| fs := d; heap := {[ 1 := o ]};
     calls := []; inflight := []; unhandled := [] |}.

Definition booting (d : filesystem) (fields : list (string * value)) : world :=
  holding d (literal fields).

Definition protect (p : path) (w : world) : world :=
  set_fs {| nodes := nodes (fs w); readonly := {[ p ]} ∪ readonly (fs w) |} w.

Definition home : filesystem := disk [(["home"], Dir)].

Definition config : path := ["home"; "config.json"].

(** The disk after the constructor's step that ensures the parent
    directory. *)
Definition ensure_parent (rec : bool) (d : filesystem) (p : path) : result filesystem :=
  if rec && negb (exists_at d p) && negb (exists_at d (dirname p))
  then mkdir d (dirname p)
  else Ok d.

(** The view [wrap] returns when it kept the caller's object. *)
Definition view_of (tgt : nat) (fileLoc : path) (settings : SyncedObjectSettings) : Proxy :=
  {| target := tgt;
     self := with_content (fresh_instance tgt fileLoc settings) (Ref tgt) (method_of settings) |}.

(** The state a computation ends in, whatever it returned. *)
Definition after {Σ A} (m : M Σ A) (σ : Σ) : Σ := snd (m σ).

(** *** Further runs and settings *)

(** Mutations made at given instants; the state after the last one. *)
Fixpoint mutate_at (view : Proxy) (tms : list (nat * mutation)) (st : state) : state :=
  match tms with
  | [] => st
  | (t, m) :: r => mutate_at view r (after (mutate view m) (elapse t st))
  end.

(** A codec whose [stringify] throws. *)
Definition refusing : format :=
  {| fmt_stringify := fun _ => Throw (UserError "refused");
     fmt_parse := JSON.parse |}.

Definition formatted (f : format) (how : save_setting) (rec : bool) : SyncedObjectSettings :=
  {| s_recursive := Some rec; s_format := Some f; s_save := Some how |}.


(** The view [wrap] returns over the object at [l]. *)
Definition view_at (l tgt : nat) (fileLoc : path) (settings : SyncedObjectSettings) : Proxy :=
  {| target := l;
     self := with_content (fresh_instance tgt fileLoc settings) (Ref l) (method_of settings) |}.

(** A disk with a configuration file in place. *)
Definition saved (text : string) : filesystem :=
  disk [(["home"], Dir); (config, File text)].

(** The object after a sequence of mutations. *)
Definition apply_all (ms : list mutation) (o : object) : object :=
  fold_left (fun o' m => snd (apply_mutation m o')) ms o.

(** What happens to a view's state, one event after the other: a mutation
    through the view, the clock reaching an instant, a write in flight
    settling. *)
Inductive event :=
  | Mutates (m : mutation)
  | Waits (t : nat)
  | Settles (i : nat).

Definition step (view : Proxy) (e : event) (st : state) : state :=
  match e with
  | Mutates m => after (mutate view m) st
  | Waits t => elapse t st
  | Settles i => settled i st
  end.

Definition run (view : Proxy) (es : list event) (st : state) : state :=
  fold_left (fun st' e => step view e st') es st.

Definition is_mutation (e : event) : bool :=
  match e with Mutates _ => true | _ => false end.

(** The queue holds nothing, or the one timer the closure of [timerCall]
    remembers, bound to [saveAsync]. *)
Definition one_save_timer (this : ObjectSync) (st : state) : Prop :=
  armed (queue st) = []
  \/ exists x, armed (queue st) = [x] /\ timeout st = Some (timer_id x)
               /\ callback x = saveAsync this.

(** * Properties *)

(** ** Equations of the model *)

Lemma stat_put d p n : p ≠ [] -> stat (put d p n) p = Some n.
Proof.
  intros Hp. destruct p as [|c r]; [done|]. simpl. apply lookup_insert_eq.
Qed.

Lemma write_file_not_root d text : write_file d [] text = Throw (IOError EISDIR).
Proof. reflexivity. Qed.

Lemma write_file_stat d p text d' :
  write_file d p text = Ok d' -> stat d' p = Some (File text).
Proof.
  intros H.
  assert (Hp : p ≠ []) by (intros ->; discriminate).
  unfold write_file in H.
  destruct (stat d p) as [[?|]|]; try discriminate.
  - destruct (decide _); [discriminate|]. injection H as <-. by apply stat_put.
  - destruct (stat d (dirname p)) as [[?|]|]; try discriminate.
    destruct (decide _); [discriminate|]. injection H as <-. by apply stat_put.
Qed.

Lemma write_file_throws_IOError d p text e :
  write_file d p text = Throw e -> is_IOError e = true.
Proof.
  unfold write_file. intros H.
  repeat case_match; simplify_eq; done.
Qed.

Lemma construct_fields tgt p settings w this w' :
  construct tgt p settings w = (Ok this, w') ->
  this = with_content (fresh_instance tgt p settings) (content this) (method_of settings).
Proof.
  unfold construct, bind, ret. intros H.
  repeat (match type of H with
          | context [match ?x with _ => _ end] => destruct x eqn:?
          end; try discriminate).
  all: by injection H as <- _.
Qed.

Lemma wrap_view tgt p settings w view w' :
  wrap tgt p settings w = (Ok view, w') ->
  content (self view) = Ref (target view)
  ∧ self view = with_content (fresh_instance tgt p settings) (Ref (target view)) (method_of settings).
Proof.
  unfold wrap, bind. intros H.
  destruct (construct tgt p settings w) as [[this|e] w1] eqn:Hc; [|discriminate].
  apply construct_fields in Hc.
  destruct (content this) as [l|v] eqn:Hl; [|discriminate].
  injection H as <- _. simpl. split; [done|]. by rewrite Hc at 1.
Qed.

Lemma mutate_eq view m st o :
  heap (mem st) !! target view = Some o ->
  mutate view m st =
    (_ <- call_save (self view) ;; ret (fst (apply_mutation m o)))
      (with_mem (store (target view) (snd (apply_mutation m o)) (mem st)) st).
Proof.
  intros Ho.
  destruct m; simpl; unfold handler.set, handler.deleteProperty;
    unfold bind at 1; unfold lift, Reflect_set, Reflect_deleteProperty;
    by rewrite Ho.
Qed.

Lemma mutate_not_object view m st :
  heap (mem st) !! target view = None ->
  mutate view m st = (Throw TypeError, st).
Proof.
  intros Ho.
  destruct m; simpl; unfold handler.set, handler.deleteProperty, bind, lift,
    Reflect_set, Reflect_deleteProperty, with_mem; rewrite Ho; by destruct st.
Qed.

Lemma live_store view o w :
  content (self view) = Ref (target view) ->
  live (self view) (store (target view) o w) = Some o.
Proof. intros Hc. unfold live. rewrite Hc. simpl. apply lookup_insert_eq. Qed.

Lemma saveSync_eq this w o :
  live this w = Some o ->
  saveSync this w =
    match stringify this o with
    | Ok text => writeFileSync (fileLocation this) text w
    | Throw e => (Throw e, w)
    end.
Proof.
  unfold live, saveSync, bind, stringify_content. intros Ho.
  destruct (content this); [|discriminate]. rewrite Ho.
  by destruct (stringify this o).
Qed.

Lemma mutate_all_app view ms1 ms2 st :
  mutate_all view (ms1 ++ ms2) st =
    (_ <- mutate_all view ms1 ;; mutate_all view ms2) st.
Proof.
  revert st. induction ms1 as [|m r IH]; intros st; simpl.
  - reflexivity.
  - unfold bind. destruct (mutate view m st) as [[b|e] st1]; [|reflexivity].
    rewrite IH. reflexivity.
Qed.

(** One mutation under the synchronous method, when it returns: the file
    holds the text of the object as it is now. *)
Lemma sync_mutation_writes view m st b st' :
  save (self view) = the_saveSync ->
  content (self view) = Ref (target view) ->
  mutate view m st = (Ok b, st') ->
  ∃ o text,
    live (self view) (mem st') = Some o
    ∧ stringify (self view) o = Ok text
    ∧ file_text (self view) (mem st') = Some text.
Proof.
  intros Hs Hc H.
  destruct (heap (mem st) !! target view) as [o|] eqn:Ho;
    [|by rewrite mutate_not_object in H].
  rewrite (mutate_eq _ _ _ _ Ho) in H.
  set (o' := snd (apply_mutation m o)) in *.
  unfold bind, call_save, lift in H. rewrite Hs in H. simpl in H.
  rewrite (saveSync_eq _ _ o') in H by by apply live_store.
  destruct (stringify (self view) o') as [text|e] eqn:Htext; [|discriminate].
  unfold writeFileSync in H.
  destruct (write_file _ _ text) as [d|e] eqn:Hw; [|discriminate].
  injection H as _ <-. exists o', text. simpl.
  split; [|split; [done|]].
  - unfold live. rewrite Hc. simpl. apply lookup_insert_eq.
  - unfold file_text. simpl. by rewrite (write_file_stat _ _ _ _ Hw).
Qed.

(** ** Writing on every mutation (C1) *)

(** C1, as amended.  Under the synchronous method, after a sequence of
    assignments and deletions through the view of which each one returned,
    the file holds the text the codec's [stringify] gives for the object as
    it is now: the object was changed first, then written out whole.  So
    parsing the file yields the live value exactly when the codec parses
    that text back to it. *)
Theorem sync_file_is_stringified_content tgt p settings w view w1 ms m st0 st :
  wrap tgt p settings w = (Ok view, w1) ->
  method_of settings = the_saveSync ->
  mutate_all view (ms ++ [m]) st0 = (Ok tt, st) ->
  ∃ o text,
    live (self view) (mem st) = Some o
    ∧ stringify (self view) o = Ok text
    ∧ file_text (self view) (mem st) = Some text
    ∧ (parses_to_live (self view) (mem st)
       ↔ parse (self view) text = Ok (VObject (own_fields o))).
Proof.
  intros Hw Hs H.
  destruct (wrap_view _ _ _ _ _ _ Hw) as [Hc Hself].
  assert (Hsave : save (self view) = the_saveSync) by (by rewrite Hself).
  rewrite mutate_all_app in H. unfold bind in H.
  destruct (mutate_all view ms st0) as [[[]|e] st1]; [|discriminate].
  simpl in H. unfold bind in H.
  destruct (mutate view m st1) as [[b|e] st2] eqn:Hm; [|discriminate].
  injection H as <-.
  destruct (sync_mutation_writes _ _ _ _ _ Hsave Hc Hm) as (o & text & Hl & Ht & Hf).
  exists o, text. repeat split; try done.
  - intros (text' & o' & Hf' & Hl' & Hp). congruence.
  - intros Hp. by exists text, o.
Qed.

Lemma sync_file_is_stringified_content_witness :
  let view := view_of 1 config no_settings in
  let w1 := after (wrap 1 config no_settings) (booting home [("count", VNum 0)]) in
  let st := after (mutate_all view [Assign "count" (VNum 1); Remove "count"]) (start w1) in
  ∃ o text,
    live (self view) (mem st) = Some o
    ∧ stringify (self view) o = Ok text
    ∧ file_text (self view) (mem st) = Some text
    ∧ (parses_to_live (self view) (mem st)
       ↔ parse (self view) text = Ok (VObject (own_fields o))).
Proof.
  intros view w1 st.
  apply (sync_file_is_stringified_content 1 config no_settings
           (booting home [("count", VNum 0)]) view w1
           [Assign "count" (VNum 1)] (Remove "count") (start w1) st);
    [reflexivity | reflexivity | vm_compute; reflexivity].
Defined.

(** C1 as it was stated fails with the default codec: [JSON.stringify]
    writes NaN as null, so after the assignment [view.x = NaN] the file
    parses to an object whose [x] is null. *)
Lemma sync_parse_differs_from_live :
  let view := view_of 1 config no_settings in
  let w1 := after (wrap 1 config no_settings) (booting home [("count", VNum 0)]) in
  let st := after (handler.set view "x" VNaN) (start w1) in
  wrap 1 config no_settings (booting home [("count", VNum 0)]) = (Ok view, w1)
  ∧ save (self view) = the_saveSync
  ∧ fst (handler.set view "x" VNaN (start w1)) = Ok true
  ∧ file_text (self view) (mem st) = Some (JSON.js "{'count':0,'x':null}")
  ∧ parse (self view) (JSON.js "{'count':0,'x':null}")
      = Ok (VObject [("count", VNum 0); ("x", VNull)])
  ∧ own_fields <$> live (self view) (mem st)
      = Some [("count", VNum 0); ("x", VNaN)]
  ∧ ¬ parses_to_live (self view) (mem st).
Proof.
  intros view w1 st.
  assert (Hf : file_text (self view) (mem st) = Some (JSON.js "{'count':0,'x':null}"))
    by (vm_compute; reflexivity).
  assert (Hl : own_fields <$> live (self view) (mem st)
               = Some [("count", VNum 0); ("x", VNaN)])
    by (vm_compute; reflexivity).
  assert (Hp : parse (self view) (JSON.js "{'count':0,'x':null}")
               = Ok (VObject [("count", VNum 0); ("x", VNull)]))
    by (vm_compute; reflexivity).
  split; [reflexivity|].
  split; [reflexivity|].
  split; [vm_compute; reflexivity|].
  split; [exact Hf|]. split; [exact Hp|]. split; [exact Hl|].
  intros (text & o & Hf' & Hl' & Hp').
  assert (Htext : text = JSON.js "{'count':0,'x':null}") by congruence.
  rewrite Hl' in Hl. simpl in Hl. injection Hl as Hl.
  rewrite Htext, Hp, Hl in Hp'. discriminate.
Qed.

(** ** Construction (C2, C3, C8) *)

(** The last two steps of the constructor on a new path, run with the
    facts at hand. *)
Local Ltac stringify_then_write Ho Ht Hw :=
  unfold stringify_content; simpl; rewrite Ho, Ht;
  unfold writeFileSync; simpl; rewrite Hw; simpl;
  eexists; split; [reflexivity|]; simpl;
  repeat split; try done; by eexists.

(** The constructor on a path where nothing is: the parent directory is
    seen to, the caller's object is written out, and the instance keeps the
    reference it was given. *)
Lemma wrap_absent tgt p settings w o text d1 d2 :
  exists_at (fs w) p = false ->
  heap w !! tgt = Some o ->
  ensure_parent (recursive_of settings) (fs w) p = Ok d1 ->
  stringify_of settings o = Ok text ->
  write_file d1 p text = Ok d2 ->
  ∃ w',
    wrap tgt p settings w = (Ok (view_of tgt p settings), w')
    ∧ fs w' = d2
    ∧ heap w' = heap w
    ∧ inflight w' = inflight w
    ∧ unhandled w' = unhandled w
    ∧ ∃ before, calls w' = before ++ [WriteFileSync p text].
Proof.
  intros He Ho Hd Ht Hw.
  unfold wrap, construct, bind. unfold existsSync at 1. rewrite He.
  unfold ensure_parent in Hd. rewrite He in Hd. simpl.
  destruct (recursive_of settings); simpl in *.
  - unfold bind, existsSync. simpl.
    destruct (exists_at (fs w) (dirname p)); simpl in *.
    + injection Hd as <-. stringify_then_write Ho Ht Hw.
    + unfold mkdirSync. simpl. rewrite Hd. stringify_then_write Ho Ht Hw.
  - injection Hd as <-. stringify_then_write Ho Ht Hw.
Qed.

(** [ObjectFile.create] on a path where nothing is does the same. *)
Corollary create_absent settings w o text d1 d2 :
  exists_at (fs w) (ObjectFile.fileLocation settings) = false ->
  heap w !! ObjectFile.defaultContent settings = Some o ->
  ensure_parent (recursive_of (ObjectFile.shared settings)) (fs w)
    (ObjectFile.fileLocation settings) = Ok d1 ->
  stringify_of (ObjectFile.shared settings) o = Ok text ->
  write_file d1 (ObjectFile.fileLocation settings) text = Ok d2 ->
  ∃ view w',
    ObjectFile.create settings w = (Ok view, w')
    ∧ target view = ObjectFile.defaultContent settings
    ∧ content (self view) = Ref (ObjectFile.defaultContent settings)
    ∧ fs w' = d2
    ∧ heap w' = heap w.
Proof.
  intros He Ho Hd Ht Hw.
  destruct (wrap_absent _ _ _ _ _ _ _ _ He Ho Hd Ht Hw)
    as (w' & Hwrap & Hfs & Hheap & _).
  by eexists _, w'.
Qed.

(** C2.  When no file is at the path, construction runs the default
    content through the codec's [stringify] and writes the text to the
    path, which creates the file; the instance and the view hold the very
    object that was passed in: nothing was parsed back and no object was
    made. *)
Theorem bootstrap_writes_default_and_keeps_it tgt p settings w o text d1 d2 :
  exists_at (fs w) p = false ->
  heap w !! tgt = Some o ->
  ensure_parent (recursive_of settings) (fs w) p = Ok d1 ->
  stringify_of settings o = Ok text ->
  write_file d1 p text = Ok d2 ->
  ∃ view w',
    wrap tgt p settings w = (Ok view, w')
    ∧ (∃ before, calls w' = before ++ [WriteFileSync p text])
    ∧ file_text (self view) w' = Some text
    ∧ content (self view) = Ref tgt
    ∧ target view = tgt
    ∧ heap w' = heap w
    ∧ live (self view) w' = Some o.
Proof.
  intros He Ho Hd Ht Hw.
  destruct (wrap_absent _ _ _ _ _ _ _ _ He Ho Hd Ht Hw)
    as (w' & Hwrap & Hfs & Hheap & _ & _ & Hcalls).
  exists (view_of tgt p settings), w'.
  split; [done|]. split; [done|]. split.
  - unfold file_text. simpl. rewrite Hfs. by rewrite (write_file_stat _ _ _ _ Hw).
  - repeat split; try done. unfold live. simpl. by rewrite Hheap.
Qed.

Lemma bootstrap_writes_default_and_keeps_it_witness :
  ∃ view w',
    wrap 1 config no_settings (booting home [("count", VNum 0)]) = (Ok view, w')
    ∧ (∃ before, calls w' = before ++ [WriteFileSync config (JSON.js "{'count':0}")])
    ∧ file_text (self view) w' = Some (JSON.js "{'count':0}")
    ∧ content (self view) = Ref 1
    ∧ target view = 1
    ∧ heap w' = heap (booting home [("count", VNum 0)])
    ∧ live (self view) w' = Some (literal [("count", VNum 0)]).
Proof.
  apply (bootstrap_writes_default_and_keeps_it 1 config no_settings
           (booting home [("count", VNum 0)]) (literal [("count", VNum 0)])
           (JSON.js "{'count':0}") home (put home config (File (JSON.js "{'count':0}"))));
    vm_compute; reflexivity.
Defined.

Lemma construct_existing tgt p settings w text :
  stat (fs w) p = Some (File text) ->
  construct tgt p settings w =
    (c <- (v <- call (parse_of settings text) ;; allocate v) ;;
     ret (with_content (fresh_instance tgt p settings) c (method_of settings)))
      (log_call (ReadFileSync p) (log_call (ExistsSync p) w)).
Proof.
  intros Hs.
  assert (He : exists_at (fs w) p = true) by (unfold exists_at; by rewrite Hs).
  unfold construct, bind. unfold existsSync at 1. rewrite He.
  rewrite andb_false_r. simpl.
  unfold read_file. by rewrite Hs.
Qed.

Lemma wrap_eq tgt p settings w :
  wrap tgt p settings w =
    match construct tgt p settings w with
    | (Ok this, w') =>
        match content this with
        | Ref l => (Ok {| target := l; self := this |}, w')
        | NotObject _ => (Throw TypeError, w')
        end
    | (Throw e, w') => (Throw e, w')
    end.
Proof.
  unfold wrap, bind.
  destruct (construct tgt p settings w) as [[this|e] w']; [|done].
  by destruct (content this).
Qed.

(** C3.  When a file is at the path, construction reads its whole text and
    hands it to the codec's [parse]; what [parse] returns becomes the
    content of the instance (an object is new in memory).  When [parse]
    throws, the constructor and [wrap] throw the same error: there is no
    view, and memory and disk are as they were. *)
Theorem bootstrap_reads_existing_file tgt p settings w text :
  stat (fs w) p = Some (File text) ->
  let w1 := log_call (ReadFileSync p) (log_call (ExistsSync p) w) in
  (∀ v, parse_of settings text = Ok v ->
     ∃ this w',
       construct tgt p settings w = (Ok this, w')
       ∧ fs w' = fs w
       ∧ calls w' = calls w ++ [ExistsSync p; ReadFileSync p]
       ∧ match v with
         | VObject fields =>
             ∃ l, content this = Ref l
                  ∧ heap w !! l = None
                  ∧ heap w' = <[l := literal fields]> (heap w)
                  ∧ wrap tgt p settings w = (Ok {| target := l; self := this |}, w')
         | _ =>
             content this = NotObject v
             ∧ heap w' = heap w
             ∧ wrap tgt p settings w = (Throw TypeError, w')
         end)
  ∧ (∀ e, parse_of settings text = Throw e ->
       construct tgt p settings w = (Throw e, w1)
       ∧ wrap tgt p settings w = (Throw e, w1)
       ∧ heap w1 = heap w
       ∧ fs w1 = fs w
       ∧ inflight w1 = inflight w
       ∧ unhandled w1 = unhandled w).
Proof.
  intros Hs w1. split.
  - intros v Hv. rewrite wrap_eq, (construct_existing _ _ _ _ _ Hs).
    unfold bind, call. rewrite Hv. fold w1.
    assert (Hcalls : calls w1 = calls w ++ [ExistsSync p; ReadFileSync p])
      by (simpl; by rewrite <- app_assoc).
    destruct v; simpl;
      try (eexists _, _; split; [reflexivity|]; by repeat split).
    eexists _, _. split; [reflexivity|]. simpl.
    split; [done|]. split; [done|].
    eexists. split; [reflexivity|]. split; [|done].
    apply not_elem_of_dom, is_fresh.
  - intros e He. rewrite wrap_eq, (construct_existing _ _ _ _ _ Hs).
    unfold bind, call. rewrite He. by repeat split.
Qed.

Lemma bootstrap_reads_existing_file_witness :
  let w := booting (disk [(["home"], Dir); (config, File (JSON.js "{'count':7}"))]) [] in
  ∃ this w',
    construct 1 config no_settings w = (Ok this, w')
    ∧ live this w' = Some (literal [("count", VNum 7)])
    ∧ content this ≠ Ref 1.
Proof.
  intros w.
  assert (Hs : stat (fs w) config = Some (File (JSON.js "{'count':7}")))
    by (vm_compute; reflexivity).
  assert (Hv : parse_of no_settings (JSON.js "{'count':7}") = Ok (VObject [("count", VNum 7)]))
    by (vm_compute; reflexivity).
  destruct (bootstrap_reads_existing_file 1 config no_settings w _ Hs) as [Hok _].
  destruct (Hok _ Hv) as (this & w' & Hc & _ & _ & l & Hl & Hfresh & Hheap & _).
  exists this, w'. split; [exact Hc|]. split.
  - unfold live. rewrite Hl, Hheap. apply lookup_insert_eq.
  - rewrite Hl. intros [= ->]. vm_compute in Hfresh. discriminate.
Defined.

Lemma dirname_shorter (p : path) : p ≠ [] -> dirname p ≠ p.
Proof.
  intros Hp Heq. apply (f_equal (@length _)) in Heq.
  unfold dirname in Heq. rewrite removelast_firstn_len, length_take in Heq.
  destruct p; [done|]. simpl in Heq. lia.
Qed.

Lemma stat_put_ne d p q n : p ≠ q -> stat (put d p n) q = stat d q.
Proof.
  intros Hne. destruct q as [|c r]; [done|]. simpl. by apply lookup_insert_ne.
Qed.

(** With [recursive] set, a missing parent directory is made when the
    directory above it is there. *)
Lemma recursive_makes_missing_parent tgt p settings w o text :
  recursive_of settings = true ->
  exists_at (fs w) p = false ->
  stat (fs w) (dirname p) = None ->
  stat (fs w) (dirname (dirname p)) = Some Dir ->
  dirname (dirname p) ∉ readonly (fs w) ->
  dirname p ∉ readonly (fs w) ->
  heap w !! tgt = Some o ->
  stringify_of settings o = Ok text ->
  ∃ view w',
    wrap tgt p settings w = (Ok view, w')
    ∧ stat (fs w') (dirname p) = Some Dir
    ∧ file_text (self view) w' = Some text.
Proof.
  intros Hr He Hparent Hgrand Hro1 Hro2 Ho Ht.
  assert (Hp : p ≠ []) by (intros ->; discriminate).
  assert (Hd : dirname p ≠ []) by (intros Heq; rewrite Heq in Hparent; discriminate).
  assert (Hstat : stat (fs w) p = None)
    by (unfold exists_at in He; by destruct (stat (fs w) p)).
  set (d1 := put (fs w) (dirname p) Dir).
  assert (H1 : ensure_parent (recursive_of settings) (fs w) p = Ok d1).
  { unfold ensure_parent, exists_at. rewrite Hr, Hstat, Hparent. simpl.
    unfold mkdir. rewrite Hparent, Hgrand. by rewrite decide_False. }
  assert (H2 : write_file d1 p text = Ok (put d1 p (File text))).
  { unfold write_file, d1.
    rewrite stat_put_ne by by apply dirname_shorter.
    rewrite Hstat, stat_put by done. simpl. by rewrite decide_False. }
  destruct (wrap_absent _ _ _ _ _ _ _ _ He Ho H1 Ht H2)
    as (w' & Hwrap & Hfs & _).
  exists (view_of tgt p settings), w'. split; [done|]. rewrite Hfs. split.
  - rewrite stat_put_ne by (apply not_eq_sym; by apply dirname_shorter).
    by apply stat_put.
  - unfold file_text. simpl. rewrite Hfs. by rewrite stat_put.
Qed.

(** Without [recursive], a missing parent directory makes the first write
    fail, and with it the construction. *)
Lemma missing_parent_fails_without_recursive tgt p settings w o text :
  recursive_of settings = false ->
  exists_at (fs w) p = false ->
  stat (fs w) (dirname p) = None ->
  heap w !! tgt = Some o ->
  stringify_of settings o = Ok text ->
  ∃ w',
    wrap tgt p settings w = (Throw (IOError ENOENT), w')
    ∧ fs w' = fs w
    ∧ heap w' = heap w.
Proof.
  intros Hr He Hparent Ho Ht.
  assert (Hstat : stat (fs w) p = None)
    by (unfold exists_at in He; by destruct (stat (fs w) p)).
  rewrite wrap_eq. unfold construct, bind. unfold existsSync at 1.
  rewrite He. simpl. rewrite Hr. simpl.
  unfold stringify_content. simpl. rewrite Ho, Ht.
  unfold writeFileSync, write_file. simpl. rewrite Hstat, Hparent.
  by eexists.
Qed.

(** C8, on the path [/a/b/config.json] of a disk that holds the root only,
    with [recursive] set: the constructor makes one directory level, so
    making [/a/b] fails for want of [/a], the construction throws, and no
    directory was made. *)
Lemma recursive_stops_at_one_level :
  let w := booting (disk []) [("count", VNum 0)] in
  let p := ["a"; "b"; "config.json"] in
  exists_at (fs w) p = false
  ∧ exists_at (fs w) (dirname p) = false
  ∧ recursive_of recursively = true
  ∧ fst (wrap 1 p recursively w) = Throw (IOError ENOENT)
  ∧ exists_at (fs (after (wrap 1 p recursively) w)) (dirname p) = false
  ∧ calls (after (wrap 1 p recursively) w)
    = [ExistsSync p; ExistsSync (dirname p); MkdirSync (dirname p)].
Proof. vm_compute. by repeat split. Qed.

(** ** Mutations through the view (C5, C6, C7, C9, C10) *)

Lemma with_mem_id st : with_mem (mem st) st = st.
Proof. by destruct st. Qed.

Lemma store_id l o w : heap w !! l = Some o -> store l o w = w.
Proof.
  intros Ho. unfold store, set_heap. rewrite insert_id by done. by destruct w.
Qed.

(** A refused assignment or deletion leaves the object as it was. *)
Lemma refused_mutation_unchanged m o :
  fst (apply_mutation m o) = false -> snd (apply_mutation m o) = o.
Proof.
  destruct m; simpl; unfold OrdinarySet, OrdinaryDelete;
    repeat case_match; simpl; done.
Qed.

(** C5.  Under the synchronous method, when the write a mutation sets off
    fails, the mutation throws the error of the write; the object in memory
    has the mutation applied all the same, and the disk is as it was. *)
Theorem sync_write_failure_propagates view m st o text e :
  save (self view) = the_saveSync ->
  content (self view) = Ref (target view) ->
  heap (mem st) !! target view = Some o ->
  stringify (self view) (snd (apply_mutation m o)) = Ok text ->
  write_file (fs (mem st)) (fileLocation (self view)) text = Throw e ->
  ∃ st',
    mutate view m st = (Throw e, st')
    ∧ live (self view) (mem st') = Some (snd (apply_mutation m o))
    ∧ fs (mem st') = fs (mem st).
Proof.
  intros Hs Hc Ho Ht Hw.
  rewrite (mutate_eq _ _ _ _ Ho).
  unfold bind, call_save, lift. rewrite Hs. simpl.
  rewrite (saveSync_eq _ _ (snd (apply_mutation m o))) by by apply live_store.
  rewrite Ht. unfold writeFileSync. simpl. rewrite Hw.
  eexists. split; [reflexivity|]. simpl. split; [|done].
  unfold live. rewrite Hc. simpl. apply lookup_insert_eq.
Qed.

Lemma sync_write_failure_propagates_witness :
  let view := view_of 1 config no_settings in
  let w1 := after (wrap 1 config no_settings) (booting home [("count", VNum 0)]) in
  let st := start (protect config w1) in
  let o := literal [("count", VNum 0)] in
  let m := Assign "count" (VNum 1) in
  ∃ st',
    mutate view m st = (Throw (IOError EACCES), st')
    ∧ live (self view) (mem st') = Some (snd (apply_mutation m o))
    ∧ fs (mem st') = fs (mem st).
Proof.
  intros view w1 st o m.
  apply (sync_write_failure_propagates view m st o (JSON.js "{'count':1}") (IOError EACCES));
    vm_compute; reflexivity.
Defined.

(** C6.  Under the asynchronous and the lazy method a mutation through the
    view always returns, with the outcome of the assignment or deletion
    and without touching the disk; and when a write in flight fails, the
    failure is dropped: the state afterwards is the state before with that
    write gone from those in flight, so nothing is thrown, nothing is
    written again and nothing records the failure. *)
Theorem async_lazy_write_errors_are_dropped view st o :
  save (self view) ≠ the_saveSync ->
  heap (mem st) !! target view = Some o ->
  (∀ m, ∃ st',
     mutate view m st = (Ok (fst (apply_mutation m o)), st')
     ∧ fs (mem st') = fs (mem st))
  ∧ (∀ i p text e,
       inflight (mem st) !! i = Some (p, text) ->
       write_file (fs (mem st)) p text = Throw e ->
       settled i st
       = with_mem (set_inflight (delete i (inflight (mem st))) (mem st)) st).
Proof.
  intros Hs Ho. split.
  - intros m. rewrite (mutate_eq _ _ _ _ Ho).
    unfold bind, call_save.
    destruct (save (self view)) eqn:Hm; [done| |]; simpl.
    + eexists. split; [reflexivity|]. simpl.
      unfold saveAsync. by destruct (stringify_content _ _) as [[?|?] ?] eqn:Hsc;
        unfold stringify_content in Hsc; repeat case_match; simplify_eq.
    + eexists. split; [reflexivity|].
      unfold timerCall, createLazyTimer. simpl. done.
  - intros i p text e Hi Hw. unfold settled, settle. by rewrite Hi, Hw.
Qed.

Lemma async_lazy_write_errors_are_dropped_witness :
  let view := view_of 1 config (saving async) in
  let w1 := after (wrap 1 config (saving async)) (booting home [("count", VNum 0)]) in
  let st := start (protect config (saveAsync (self view) w1)) in
  inflight (mem st) = [(config, JSON.js "{'count':0}")]
  ∧ write_file (fs (mem st)) config (JSON.js "{'count':0}") = Throw (IOError EACCES)
  ∧ (∃ st', mutate view (Remove "count") st = (Ok true, st')
            ∧ fs (mem st') = fs (mem st))
  ∧ settled 0 st = with_mem (set_inflight [] (mem st)) st.
Proof.
  intros view w1 st.
  assert (Hs : save (self view) ≠ the_saveSync) by discriminate.
  assert (Ho : heap (mem st) !! target view = Some (literal [("count", VNum 0)]))
    by (vm_compute; reflexivity).
  assert (Hi : inflight (mem st) !! 0 = Some (config, JSON.js "{'count':0}"))
    by (vm_compute; reflexivity).
  assert (Hw : write_file (fs (mem st)) config (JSON.js "{'count':0}") = Throw (IOError EACCES))
    by (vm_compute; reflexivity).
  destruct (async_lazy_write_errors_are_dropped view st _ Hs Ho) as [Hm Hsettle].
  split; [vm_compute; reflexivity|]. split; [exact Hw|].
  split; [exact (Hm (Remove "count"))|].
  exact (Hsettle 0 _ _ _ Hi Hw).
Defined.

(** C7.  Reading a field, asking whether a field is there and listing the
    keys through the view give what the same operation gives on the
    content itself, and leave the whole state as it was: memory, disk,
    the calls made, the writes in flight and the timers, so no save ran. *)
Theorem reads_pass_through view st o :
  content (self view) = Ref (target view) ->
  live (self view) (mem st) = Some o ->
  (∀ prop, handler.get view prop st = (Ok (OrdinaryGet o prop), st))
  ∧ (∀ prop, handler.has view prop st = (Ok (OrdinaryHas o prop), st))
  ∧ handler.ownKeys view st = (Ok (OrdinaryOwnKeys o), st).
Proof.
  intros Hc Hl. unfold live in Hl. rewrite Hc in Hl.
  unfold handler.get, handler.has, handler.ownKeys, lift,
    Reflect_get, Reflect_has, Reflect_ownKeys.
  rewrite Hl, with_mem_id. done.
Qed.

Lemma reads_pass_through_witness :
  let view := view_of 1 config (saving (millis 50)) in
  let st := start (after (wrap 1 config (saving (millis 50)))
                     (booting home [("count", VNum 0)])) in
  handler.get view "count" st = (Ok (VNum 0), st)
  ∧ handler.has view "size" st = (Ok false, st)
  ∧ handler.ownKeys view st = (Ok ["count"], st).
Proof.
  intros view st.
  destruct (reads_pass_through view st (literal [("count", VNum 0)]))
    as (Hget & Hhas & Hkeys); [reflexivity | vm_compute; reflexivity |].
  split; [exact (Hget "count")|]. split; [exact (Hhas "size")|]. exact Hkeys.
Defined.

(** C9, as amended.  Under the asynchronous and the lazy method writes are
    not put in a queue: each run of [saveAsync] (at a mutation under the
    asynchronous method, from the timer under the lazy one) starts its own
    write at once, with the text of the content at that moment, whatever
    writes are still in flight; and whichever write settles puts its text
    in the file, so the file ends with the text of the write that settles
    last, which may be an older one. *)
Theorem async_writes_are_not_serialized view st o :
  content (self view) = Ref (target view) ->
  heap (mem st) !! target view = Some o ->
  (∀ m text,
     save (self view) = the_saveAsync ->
     stringify (self view) (snd (apply_mutation m o)) = Ok text ->
     inflight (mem (after (mutate view m) st))
     = inflight (mem st) ++ [(fileLocation (self view), text)])
  ∧ (∀ text,
       stringify (self view) o = Ok text ->
       inflight (saveAsync (self view) (mem st))
       = inflight (mem st) ++ [(fileLocation (self view), text)])
  ∧ (∀ i p text d,
       inflight (mem st) !! i = Some (p, text) ->
       write_file (fs (mem st)) p text = Ok d ->
       stat (fs (mem (settled i st))) p = Some (File text)).
Proof.
  intros Hc Ho. split; [|split].
  - intros m text Hs Ht. unfold after. rewrite (mutate_eq _ _ _ _ Ho).
    unfold bind, call_save. rewrite Hs. simpl.
    unfold saveAsync, stringify_content. rewrite Hc. simpl.
    rewrite lookup_insert_eq, Ht. done.
  - intros text Ht. unfold saveAsync, stringify_content. rewrite Hc, Ho, Ht. done.
  - intros i p text d Hi Hw. unfold settled, settle. simpl. rewrite Hi, Hw. simpl.
    by apply (write_file_stat _ _ _ _ Hw).
Qed.

Lemma async_writes_are_not_serialized_witness :
  let view := view_of 1 config (saving async) in
  let w1 := after (wrap 1 config (saving async)) (booting home [("count", VNum 0)]) in
  let st := after (handler.set view "count" (VNum 1)) (start w1) in
  inflight (mem (after (mutate view (Assign "count" (VNum 2))) st))
  = inflight (mem st) ++ [(config, JSON.js "{'count':2}")]
  ∧ stat (fs (mem (settled 0 st))) config = Some (File (JSON.js "{'count':1}")).
Proof.
  intros view w1 st.
  assert (Ho : heap (mem st) !! target view = Some (literal [("count", VNum 1)]))
    by (vm_compute; reflexivity).
  destruct (async_writes_are_not_serialized view st _ eq_refl Ho) as (Hm & _ & Hsettle).
  split.
  - apply (Hm (Assign "count" (VNum 2)) (JSON.js "{'count':2}")); [reflexivity|].
    vm_compute; reflexivity.
  - apply (Hsettle 0 config (JSON.js "{'count':1}")
             (put home config (File (JSON.js "{'count':1}"))));
      vm_compute; reflexivity.
Defined.

(** C9 as it was stated fails.  Two assignments under the asynchronous
    method start two writes, both in flight at once; when the second
    settles first and the first after it, the file is left with the older
    text while the object holds the newer value. *)
Lemma older_write_lands_last :
  let view := view_of 1 config (saving async) in
  let w1 := after (wrap 1 config (saving async)) (booting home [("count", VNum 0)]) in
  let st := after (mutate_all view [Assign "count" (VNum 1); Assign "count" (VNum 2)])
                  (start w1) in
  let st' := settled 0 (settled 1 st) in
  wrap 1 config (saving async) (booting home [("count", VNum 0)]) = (Ok view, w1)
  ∧ save (self view) = the_saveAsync
  ∧ inflight (mem st) = [(config, JSON.js "{'count':1}"); (config, JSON.js "{'count':2}")]
  ∧ file_text (self view) (mem (settled 1 st)) = Some (JSON.js "{'count':2}")
  ∧ inflight (mem st') = []
  ∧ file_text (self view) (mem st') = Some (JSON.js "{'count':1}")
  ∧ own_fields <$> live (self view) (mem st') = Some [("count", VNum 2)].
Proof.
  intros view w1 st st'.
  split; [reflexivity|]. split; [reflexivity|].
  repeat split; vm_compute; reflexivity.
Qed.

(** ** The lazy timer (C4) *)

Section LazyTimer.

Context {Σ : Type} (delay : nat) (action : Σ -> Σ).

Let trigger := createLazyTimer delay action.

Lemma clear_single (x : timer Σ) :
  filter (fun y => timer_id y ≠ timer_id x) [x] = [].
Proof.
  rewrite filter_cons, decide_False by (intros Hne; by apply Hne). done.
Qed.

Lemma advance_none_due t (q : timers Σ) s :
  next_due t (armed q) = None -> advance t (q, s) = (wait t q, s).
Proof.
  intros Hn. unfold advance. simpl.
  destruct (length (armed q)); simpl; [done|]. by rewrite Hn.
Qed.

Lemma advance_one_due t (q : timers Σ) s x :
  armed q = [x] -> deadline x <= t ->
  advance t (q, s) = (wait t (fire x q), callback x s).
Proof.
  intros Ha Hd. unfold advance. simpl. rewrite Ha. simpl. rewrite Ha. simpl.
  apply Nat.leb_le in Hd. by rewrite Hd.
Qed.

Lemma next_due_single_later t (x : timer Σ) :
  t < deadline x -> next_due t [x] = None.
Proof.
  intros Hd. simpl. apply Nat.leb_gt in Hd. by rewrite Hd.
Qed.

(** A call of the trigger leaves exactly the new timer armed, whatever
    single timer was pending before. *)
Lemma trigger_rearms timeout (q : timers Σ) :
  armed q = [] \/ (exists x, armed q = [x] /\ timeout = Some (timer_id x)) ->
  pending action (now q + delay) (fst (trigger (timeout, q))) (snd (trigger (timeout, q)))
  /\ fired (snd (trigger (timeout, q))) = fired q
  /\ now (snd (trigger (timeout, q))) = now q.
Proof.
  intros H. unfold trigger, createLazyTimer, pending. simpl.
  assert (Hc : armed (clearTimeout timeout q) = []).
  { destruct H as [H|(x & H & ->)].
    - destruct timeout; simpl; by rewrite ?H.
    - simpl. rewrite H. apply clear_single. }
  split; [|by destruct timeout].
  eexists. rewrite Hc. simpl. split; [reflexivity|].
  by destruct timeout.
Qed.

(** Waiting never arms a timer. *)
Lemma advance_keeps_or_clears t timeout (q : timers Σ) s :
  armed q = [] \/ (exists x, armed q = [x] /\ timeout = Some (timer_id x)) ->
  let q' := fst (advance t (q, s)) in
  armed q' = [] \/ (exists x, armed q' = [x] /\ timeout = Some (timer_id x)).
Proof.
  intros [H|(x & H & Ht)]; simpl.
  - rewrite advance_none_due by by rewrite H. by left.
  - destruct (decide (deadline x <= t)) as [Hd|Hd].
    + rewrite (advance_one_due _ _ _ _ H Hd). left. simpl.
      rewrite H. apply clear_single.
    + rewrite advance_none_due
        by (rewrite H; apply next_due_single_later; lia).
      right. by exists x.
Qed.

Lemma call_at_eq t timeout (q : timers Σ) s :
  call_at trigger t (timeout, q, s)
  = (fst (trigger (timeout, fst (advance t (q, s)))),
     snd (trigger (timeout, fst (advance t (q, s)))),
     snd (advance t (q, s))).
Proof.
  unfold call_at. destruct (advance t (q, s)) as [q1 s1]. simpl.
  by destruct (trigger (timeout, q1)).
Qed.

(** After every call the only timer that can be armed is the one the
    closure remembers. *)
Lemma calls_keep_one ts timeout (q : timers Σ) s :
  armed q = [] \/ (exists x, armed q = [x] /\ timeout = Some (timer_id x)) ->
  Forall (fun st =>
            armed (snd (fst st)) = []
            \/ (exists x, armed (snd (fst st)) = [x]
                          /\ fst (fst st) = Some (timer_id x)))
         (call_trace trigger ts (timeout, q, s)).
Proof.
  revert timeout q s. induction ts as [|t r IH]; intros timeout q s H.
  - apply Forall_cons. split; [done|by apply Forall_nil].
  - cbn [call_trace]. apply Forall_cons. split; [done|].
    rewrite call_at_eq. apply IH.
    pose proof (advance_keeps_or_clears t timeout q s H) as H1. simpl in H1.
    destruct (trigger_rearms timeout _ H1) as [(x & Hx & Ht & _) _].
    right. by exists x.
Qed.

Lemma last_cons (a d : nat) (l : list nat) : List.last (a :: l) d = List.last l a.
Proof.
  revert a d. induction l as [|b r IH]; intros a d; [done|].
  change (List.last (a :: b :: r) d) with (List.last (b :: r) d).
  by rewrite !IH.
Qed.

(** Through a burst the pending timer moves with the calls and nothing
    runs. *)
Lemma burst_leaves_one_pending ts t timeout (q : timers Σ) s :
  pending action (t + delay) timeout q ->
  now q = t ->
  burst delay t ts ->
  let st := calls_at trigger ts (timeout, q, s) in
  pending action (List.last ts t + delay) (fst (fst st)) (snd (fst st))
  /\ now (snd (fst st)) = List.last ts t
  /\ fired (snd (fst st)) = fired q
  /\ snd st = s.
Proof.
  revert t timeout q s. induction ts as [|t' r IH]; intros t timeout q s Hp Hn Hb.
  - simpl. done.
  - destruct Hb as (Hle & Hlt & Hb). rewrite last_cons.
    unfold calls_at. cbn [fold_left]. rewrite call_at_eq.
    destruct Hp as (x & Hx & Ht & Hd & Hcb).
    assert (Hadv : advance t' (q, s) = (wait t' q, s)).
    { apply advance_none_due. rewrite Hx. apply next_due_single_later. lia. }
    rewrite Hadv. simpl.
    assert (Hone : armed (wait t' q) = []
                   \/ (exists y, armed (wait t' q) = [y] /\ timeout = Some (timer_id y)))
      by (right; by exists x).
    destruct (trigger_rearms timeout _ Hone) as (Hp' & Hf' & Hn').
    simpl in Hp', Hf', Hn'.
    assert (Hmax : Nat.max (now q) t' = t') by lia.
    rewrite Hmax in Hp', Hn'.
    destruct (IH t' _ _ s Hp' Hn' Hb) as (H1 & H2 & H3 & H4).
    split; [exact H1|]. split; [exact H2|]. split; [|exact H4].
    etrans; [exact H3|exact Hf'].
Qed.

(** The first call of a burst, made when no timer is armed. *)
Lemma first_call_arms t timeout (q : timers Σ) s :
  armed q = [] ->
  now q <= t ->
  let st := call_at trigger t (timeout, q, s) in
  pending action (t + delay) (fst (fst st)) (snd (fst st))
  /\ now (snd (fst st)) = t
  /\ fired (snd (fst st)) = fired q
  /\ snd st = s.
Proof.
  intros Ha Hn. rewrite call_at_eq.
  rewrite advance_none_due by by rewrite Ha.
  assert (Hone : armed (wait t q) = []
                 \/ (exists y, armed (wait t q) = [y] /\ timeout = Some (timer_id y)))
    by by left.
  destruct (trigger_rearms timeout _ Hone) as (Hp & Hf & Hn').
  simpl in Hp, Hf, Hn'.
  assert (Hmax : Nat.max (now q) t = t) by lia.
  rewrite Hmax in Hp, Hn'. done.
Qed.

End LazyTimer.

(** C4.  The trigger made by [createLazyTimer delay action], with no timer
    armed, called at [t1] and then at the instants [ts], each less than
    [delay] after the one before: every call leaves one timer pending, the
    one of that call; as long as the clock has not reached [delay] after
    the last call nothing has run and that timer is pending, due at that
    instant; once the clock is there, [action] has run exactly once, at
    that instant, and no timer is left.  Whatever the instants of the
    calls, at most one timer is armed after each of them and at every
    instant from then on. *)
Theorem lazy_timer_fires_once_after_burst {Σ} (delay : nat) (action : Σ -> Σ)
    (timeout : option nat) (q : timers Σ) (s0 : Σ) (t1 : nat) (ts : list nat) :
  armed q = [] ->
  now q <= t1 ->
  burst delay t1 ts ->
  let trigger := createLazyTimer delay action in
  let st := calls_at trigger (t1 :: ts) (timeout, q, s0) in
  let final := List.last ts t1 in
  pending action (final + delay) (fst (fst st)) (snd (fst st))
  /\ (forall t, t < final + delay ->
        fired (fst (advance t (snd (fst st), snd st))) = fired q
        /\ snd (advance t (snd (fst st), snd st)) = s0
        /\ pending action (final + delay) (fst (fst st))
             (fst (advance t (snd (fst st), snd st))))
  /\ (forall t, final + delay <= t ->
        (exists id,
           fired (fst (advance t (snd (fst st), snd st)))
           = fired q ++ [(final + delay, id)])
        /\ snd (advance t (snd (fst st), snd st)) = action s0
        /\ armed (fst (advance t (snd (fst st), snd st))) = [])
  /\ (forall calls : list nat,
        Forall (fun st' =>
                  armed_count st' <= 1
                  /\ forall t, armed_count (fst (fst st'),
                                            fst (advance t (snd (fst st'), snd st')),
                                            snd st') <= 1)
               (call_trace trigger calls (timeout, q, s0))).
Proof.
  intros Ha Hnow Hb trigger st final.
  set (st1 := call_at trigger t1 (timeout, q, s0)).
  destruct (first_call_arms delay action t1 timeout q s0 Ha Hnow)
    as (Hp1 & Hn1 & Hf1 & Hs1).
  fold trigger in Hp1, Hn1, Hf1, Hs1. fold st1 in Hp1, Hn1, Hf1, Hs1.
  assert (H : pending action (final + delay) (fst (fst st)) (snd (fst st))
              /\ now (snd (fst st)) = final
              /\ fired (snd (fst st)) = fired (snd (fst st1))
              /\ snd st = snd st1).
  { assert (Hst : st = calls_at trigger ts (fst (fst st1), snd (fst st1), snd st1)).
    { unfold st, calls_at. cbn [fold_left]. fold st1.
      by destruct st1 as [[? ?] ?]. }
    rewrite Hst.
    by apply (burst_leaves_one_pending delay action ts t1). }
  destruct H as (Hp & Hn & Hf & Hs). rewrite Hf1 in Hf. rewrite Hs1 in Hs.
  destruct st as [[to q'] s]. simpl in *. subst s.
  destruct Hp as (x & Hx & Hto & Hd & Hcb).
  split; [by exists x|]. split; [|split].
  - intros t Ht.
    rewrite advance_none_due by (rewrite Hx; apply next_due_single_later; lia).
    simpl. split; [done|]. split; [done|]. by exists x.
  - intros t Ht.
    rewrite (advance_one_due _ _ _ _ Hx) by lia. simpl.
    rewrite Hf, Hx, Hcb, Hn, Hd. split; [|split; [done|apply clear_single]].
    exists (timer_id x). do 3 f_equal. lia.
  - intros calls.
    eapply Forall_impl; [apply calls_keep_one; by left|].
    intros [[to' q''] s'] Hone. simpl in Hone. unfold armed_count. simpl. split.
    + destruct Hone as [->|(y & -> & _)]; simpl; lia.
    + intros t.
      destruct (advance_keeps_or_clears t to' q'' s' Hone)
        as [->|(y & -> & _)]; simpl; lia.
Qed.

Lemma lazy_timer_fires_once_after_burst_witness :
  let trigger := createLazyTimer 50 (fun n : nat => S n) in
  let st := calls_at trigger [0; 10; 20] (None, no_timers, 0) in
  fired (fst (advance 60 (snd (fst st), snd st))) = []
  /\ map fst (fired (fst (advance 80 (snd (fst st), snd st)))) = [70]
  /\ snd (advance 80 (snd (fst st), snd st)) = 1.
Proof.
  intros trigger st.
  destruct (lazy_timer_fires_once_after_burst 50 (fun n : nat => S n)
              None no_timers 0 0 [10; 20])
    as (_ & Hbefore & Hafter & _); [reflexivity | simpl; lia | simpl; lia |].
  split; [apply (Hbefore 60); simpl; lia|].
  destruct (Hafter 80) as ((id & Hid) & Hs & _); [simpl; lia|].
  split; [|exact Hs].
  fold trigger in Hid. fold st in Hid. rewrite Hid. reflexivity.
Defined.

(** ** A refused mutation still saves (C10) *)

Lemma elapse_none_due t st :
  next_due t (armed (queue st)) = None ->
  elapse t st = {| mem := mem st; queue := wait t (queue st); timeout := timeout st |}.
Proof.
  intros Hn. unfold elapse. by rewrite advance_none_due.
Qed.

Lemma elapse_one_due t st x :
  armed (queue st) = [x] -> deadline x <= t ->
  elapse t st = {| mem := callback x (mem st);
                   queue := wait t (fire x (queue st));
                   timeout := timeout st |}.
Proof.
  intros Ha Hd. unfold elapse. by rewrite (advance_one_due _ _ _ _ Ha Hd).
Qed.

(** [saveAsync] on an object that serializes starts the write of its
    text. *)
Lemma saveAsync_starts_write this w o text :
  live this w = Some o ->
  stringify this o = Ok text ->
  saveAsync this w = writeFile (fileLocation this) text w.
Proof.
  intros Hl Ht. unfold live in Hl. unfold saveAsync, stringify_content.
  destruct (content this); [|done]. by rewrite Hl, Ht.
Qed.

(** A call of [timerCall] arms a timer of its own: the closure remembers
    it, it is due [timerDelay] from now and bound to [saveAsync]; memory,
    clock and the record of what ran are as before. *)
Lemma timerCall_arms this st :
  ∃ x,
    timeout (timerCall this st) = Some (timer_id x)
    ∧ armed (queue (timerCall this st))
      = armed (clearTimeout (timeout st) (queue st)) ++ [x]
    ∧ deadline x = now (queue st) + timerDelay this
    ∧ callback x = saveAsync this
    ∧ mem (timerCall this st) = mem st
    ∧ now (queue (timerCall this st)) = now (queue st)
    ∧ fired (queue (timerCall this st)) = fired (queue st).
Proof.
  unfold timerCall, createLazyTimer, setTimeout. simpl.
  exists {| timer_id := next_id (clearTimeout (timeout st) (queue st));
            deadline := now (clearTimeout (timeout st) (queue st)) + timerDelay this;
            callback := saveAsync this |}.
  simpl. by destruct (timeout st).
Qed.

(** C10.  A mutation through the view runs the bound save method also
    when the assignment or deletion is refused.  The object is then as it
    was, the mutation is the save followed by the answer [false], and the
    save handles the unchanged object.  Under the synchronous method it is
    written to the file before the mutation returns.  Under the
    asynchronous method a write of it is started.  Under the lazy method
    the mutation arms a timer: the closure remembers it, it is among the
    armed timers, due [timerDelay] from now, and its callback is
    [saveAsync], which on the unchanged object starts the write of its
    text; when the queue held at most the timer this closure armed before,
    the new timer is the only one armed, nothing runs and memory stays as
    it is while the clock is short of the deadline, and once the clock is
    there the timer has run once, at the deadline, no timer is left, and
    memory is what [saveAsync] makes of it: the write of the unchanged
    object's text is in flight. *)
Theorem save_runs_after_refused_mutation view m st o :
  content (self view) = Ref (target view) ->
  heap (mem st) !! target view = Some o ->
  fst (apply_mutation m o) = false ->
  snd (apply_mutation m o) = o
  ∧ mutate view m st = (_ <- call_save (self view) ;; ret false) st
  ∧ (∀ text d,
       save (self view) = the_saveSync ->
       stringify (self view) o = Ok text ->
       write_file (fs (mem st)) (fileLocation (self view)) text = Ok d ->
       mutate view m st
       = (Ok false,
          with_mem (set_fs d (log_call (WriteFileSync (fileLocation (self view)) text)
                                (mem st))) st))
  ∧ (∀ text,
       save (self view) = the_saveAsync ->
       stringify (self view) o = Ok text ->
       mutate view m st
       = (Ok false, with_mem (writeFile (fileLocation (self view)) text (mem st)) st))
  ∧ (save (self view) = the_timerCall ->
       ∃ st' x,
         mutate view m st = (Ok false, st')
         ∧ st' = timerCall (self view) st
         ∧ mem st' = mem st
         ∧ timeout st' = Some (timer_id x)
         ∧ x ∈ armed (queue st')
         ∧ deadline x = now (queue st) + timerDelay (self view)
         ∧ callback x = saveAsync (self view)
         ∧ (∀ text, stringify (self view) o = Ok text ->
              callback x (mem st') = writeFile (fileLocation (self view)) text (mem st))
         ∧ (armed (queue st) = []
            ∨ (∃ y, armed (queue st) = [y] ∧ timeout st = Some (timer_id y)) ->
            armed (queue st') = [x]
            ∧ (∀ t, t < deadline x ->
                 mem (elapse t st') = mem st
                 ∧ fired (queue (elapse t st')) = fired (queue st)
                 ∧ armed (queue (elapse t st')) = [x])
            ∧ (∀ t, deadline x <= t ->
                 mem (elapse t st') = saveAsync (self view) (mem st)
                 ∧ fired (queue (elapse t st'))
                   = fired (queue st) ++ [(deadline x, timer_id x)]
                 ∧ armed (queue (elapse t st')) = []
                 ∧ ∀ text, stringify (self view) o = Ok text ->
                     mem (elapse t st')
                     = writeFile (fileLocation (self view)) text (mem st)))).
Proof.
  intros Hc Ho Hm.
  pose proof (refused_mutation_unchanged _ _ Hm) as Hsame.
  assert (Heq : mutate view m st = (_ <- call_save (self view) ;; ret false) st).
  { rewrite (mutate_eq _ _ _ _ Ho), Hm, Hsame.
    by rewrite (store_id _ _ _ Ho), with_mem_id. }
  assert (Hl : live (self view) (mem st) = Some o)
    by (unfold live; by rewrite Hc).
  split; [done|]. split; [done|]. rewrite Heq. unfold bind, call_save.
  split; [|split].
  - intros text d Hs Ht Hw. rewrite Hs. unfold lift.
    rewrite (saveSync_eq _ _ _ Hl), Ht. unfold writeFileSync. by rewrite Hw.
  - intros text Hs Ht. rewrite Hs.
    unfold saveAsync, stringify_content. by rewrite Hc, Ho, Ht.
  - intros Hs. rewrite Hs.
    destruct (timerCall_arms (self view) st)
      as (x & Hto & Harmed & Hd & Hcb & Hmem & Hnow & Hfired).
    exists (timerCall (self view) st), x.
    split; [done|]. split; [done|]. split; [done|]. split; [done|].
    split; [rewrite Harmed; set_solver|]. split; [done|]. split; [done|].
    split.
    { intros text Ht. rewrite Hcb, Hmem. by apply (saveAsync_starts_write _ _ o). }
    intros Hone.
    assert (Hx : armed (queue (timerCall (self view) st)) = [x]).
    { rewrite Harmed. destruct Hone as [Hq|(y & Hq & Hy)].
      - destruct (timeout st); simpl; by rewrite Hq.
      - rewrite Hy. simpl. rewrite Hq. by rewrite clear_single. }
    split; [done|]. split.
    + intros t Ht.
      rewrite elapse_none_due
        by (rewrite Hx; by apply next_due_single_later).
      unfold wait. cbn [mem queue fired armed]. by rewrite Hmem, Hfired, Hx.
    + intros t Ht.
      rewrite (elapse_one_due _ _ _ Hx Ht).
      unfold wait, fire. cbn [mem queue fired armed].
      rewrite Hcb, Hmem, Hfired, Hx, Hnow.
      split; [done|]. split.
      { do 3 f_equal. lia. }
      split; [apply clear_single|].
      intros text Hs'. by apply (saveAsync_starts_write _ _ o).
Qed.

Lemma save_runs_after_refused_mutation_witness :
  let o := frozen [("count", VNum 0)] in
  let m := Assign "count" (VNum 1) in
  let view := view_of 1 config no_settings in
  let st := start (after (wrap 1 config no_settings) (holding home o)) in
  let lazy := view_of 1 config (saving (millis 50)) in
  let st0 := start (after (wrap 1 config (saving (millis 50))) (holding home o)) in
  (snd (apply_mutation m o) = o
   ∧ mutate view m st
     = (Ok false,
        with_mem (set_fs (put home config (File (JSON.js "{'count':0}")))
                    (log_call (WriteFileSync config (JSON.js "{'count':0}")) (mem st))) st))
  ∧ (∃ st',
       mutate lazy m st0 = (Ok false, st')
       ∧ inflight (mem (elapse 49 st')) = []
       ∧ mem (elapse 50 st') = writeFile config (JSON.js "{'count':0}") (mem st0)
       ∧ armed (queue (elapse 50 st')) = []).
Proof.
  intros o m view st lazy st0. split.
  - destruct (save_runs_after_refused_mutation view m st o)
      as (Hsame & _ & Hsync & _); [reflexivity | vm_compute; reflexivity | reflexivity |].
    split; [exact Hsame|].
    apply (Hsync (JSON.js "{'count':0}") (put home config (File (JSON.js "{'count':0}"))));
      [reflexivity | vm_compute; reflexivity | vm_compute; reflexivity].
  - destruct (save_runs_after_refused_mutation lazy m st0 o)
      as (_ & _ & _ & _ & Hlazy); [reflexivity | vm_compute; reflexivity | reflexivity |].
    destruct Hlazy as (st' & x & Hmut & _ & _ & _ & _ & Hd & _ & _ & Hrun); [reflexivity|].
    destruct Hrun as (_ & Hbefore & Hafter); [by left|].
    assert (Hdue : deadline x = 50) by (rewrite Hd; reflexivity).
    exists st'. split; [exact Hmut|].
    destruct (Hbefore 49) as (Hm49 & _); [rewrite Hdue; lia|].
    destruct (Hafter 50) as (_ & _ & Hgone & Hwrite); [rewrite Hdue; lia|].
    split; [rewrite Hm49; reflexivity|].
    split; [apply Hwrite; vm_compute; reflexivity | exact Hgone].
Defined.

(** ** The scenarios of the specification *)

(** Default content [{count: 0}], no file, synchronous saving: the file
    holds [{"count":0}], then [{"count":1}] after the assignment, then
    [{}] after the deletion. *)
Example sync_scenario :
  let view := view_of 1 config no_settings in
  let w1 := after (wrap 1 config no_settings) (booting home [("count", VNum 0)]) in
  let st1 := after (handler.set view "count" (VNum 1)) (start w1) in
  let st2 := after (handler.deleteProperty view "count") st1 in
  file_text (self view) w1 = Some (JSON.js "{'count':0}")
  /\ file_text (self view) (mem st1) = Some (JSON.js "{'count':1}")
  /\ file_text (self view) (mem st2) = Some "{}".
Proof. vm_compute. by repeat split. Qed.

(** Saving after 50 ms, three assignments at 0, 10 and 20 ms: by 60 ms no
    write was started; by 80 ms one was, at 70 ms, and it carries the value
    of the last assignment. *)
Example lazy_scenario :
  let view := view_of 1 config (saving (millis 50)) in
  let w1 := after (wrap 1 config (saving (millis 50))) (booting home [("count", VNum 0)]) in
  let st1 := after (handler.set view "count" (VNum 1)) (elapse 0 (start w1)) in
  let st2 := after (handler.set view "count" (VNum 2)) (elapse 10 st1) in
  let st3 := after (handler.set view "count" (VNum 3)) (elapse 20 st2) in
  inflight (mem (elapse 60 st3)) = []
  /\ file_text (self view) (mem (elapse 60 st3)) = Some (JSON.js "{'count':0}")
  /\ map fst (fired (queue (elapse 80 st3))) = [70]
  /\ inflight (mem (elapse 80 st3)) = [(config, JSON.js "{'count':3}")]
  /\ file_text (self view) (mem (settled 0 (elapse 80 st3))) = Some (JSON.js "{'count':3}").
Proof. vm_compute. by repeat split. Qed.

(** * Further properties of the code *)

(** ** Association lists *)





Lemma assoc_lookup_None {A} k (l : list (string * A)) :
  assoc_lookup k l = None <-> k ∉ map fst l.
Proof.
  induction l as [|[k' a'] r IH]; simpl.
  - split; [intros _; apply not_elem_of_nil|done].
  - destruct (String.eqb k k') eqn:E.
    + apply String.eqb_eq in E. subst. split; [done|].
      intros H. exfalso. apply H. apply list_elem_of_here.
    + apply String.eqb_neq in E. rewrite IH, not_elem_of_cons.
      split; [by intros ?|by intros [_ ?]].
Qed.


Lemma assoc_update_keys {A} k (a : A) l :
  map fst (assoc_update k a l) = map fst l.
Proof.
  induction l as [|[k' a'] r IH]; simpl; [done|].
  destruct (String.eqb k k'); simpl; [done|by rewrite IH].
Qed.

Lemma assoc_remove_keys_NoDup {A} k (l : list (string * A)) :
  NoDup (map fst l) -> NoDup (map fst (assoc_remove k l)).
Proof.
  induction l as [|[k' a'] r IH]; simpl; intros Hnd; [done|].
  apply NoDup_cons in Hnd as [Hnot Hnd].
  destruct (String.eqb k k') eqn:E; [done|]. simpl.
  apply NoDup_cons. split; [|by apply IH].
  intros Hin. apply Hnot.
  clear -Hin. induction r as [|[k0 a0] r IH]; simpl in *; [done|].
  destruct (String.eqb k k0); simpl in *.
  - by apply list_elem_of_further.
  - apply elem_of_cons in Hin as [->|Hin]; [apply list_elem_of_here|].
    apply list_elem_of_further. by apply IH.
Qed.

(** ** What a mutation does to the object *)




(** Distinct keys stay distinct. *)
Lemma apply_mutation_keys_NoDup m o :
  NoDup (OrdinaryOwnKeys o) -> NoDup (OrdinaryOwnKeys (snd (apply_mutation m o))).
Proof.
  unfold OrdinaryOwnKeys. intros Hnd.
  destruct m as [prop v|prop]; simpl; unfold OrdinarySet, OrdinaryDelete;
    destruct (assoc_lookup prop (props o)) as [p|] eqn:E.
  - destruct (writable p); simpl; [|done]. by rewrite assoc_update_keys.
  - destruct (extensible o); simpl; [|done].
    rewrite map_app. simpl. apply NoDup_app. split; [done|]. split.
    + intros k Hk Hk'. apply list_elem_of_singleton in Hk'. subst k.
      by apply assoc_lookup_None in E.
    + apply NoDup_singleton.
  - destruct (configurable p); simpl; [|done]. by apply assoc_remove_keys_NoDup.
  - done.
Qed.

(** ** What a save leaves alone *)



Lemma mutate_after view m st o :
  heap (mem st) !! target view = Some o ->
  after (mutate view m) st
  = after (call_save (self view))
      (with_mem (store (target view) (snd (apply_mutation m o)) (mem st)) st).
Proof.
  intros Ho. unfold after. rewrite (mutate_eq _ _ _ _ Ho). unfold bind.
  by destruct (call_save _ _) as [[?|?] ?].
Qed.









(** ** When [stringify] throws *)

(** X4.  Under the synchronous method, when the codec's [stringify] throws
    at a mutation, the mutation throws that error; the object in memory
    has the mutation applied, and nothing else changed: no call was made
    on the file system, so the file still holds the text saved before. *)
Theorem sync_stringify_failure_propagates view m st o e :
  save (self view) = the_saveSync ->
  content (self view) = Ref (target view) ->
  heap (mem st) !! target view = Some o ->
  stringify (self view) (snd (apply_mutation m o)) = Throw e ->
  mutate view m st
  = (Throw e, with_mem (store (target view) (snd (apply_mutation m o)) (mem st)) st).
Proof.
  intros Hs Hc Ho Ht.
  rewrite (mutate_eq _ _ _ _ Ho).
  unfold bind, call_save, lift. rewrite Hs. simpl.
  rewrite (saveSync_eq _ _ (snd (apply_mutation m o))) by by apply live_store.
  rewrite Ht. simpl. done.
Qed.

Lemma sync_stringify_failure_propagates_witness :
  let settings := formatted refusing sync false in
  let w := booting (saved (JSON.js "{'count':0}")) [] in
  let view := view_at 2 1 config settings in
  let o := literal [("count", VNum 0)] in
  let st := start (after (wrap 1 config settings) w) in
  let m := Assign "count" (VNum 1) in
  wrap 1 config settings w = (Ok view, mem st)
  /\ mutate view m st
     = (Throw (UserError "refused"),
        with_mem (store 2 (snd (apply_mutation m o)) (mem st)) st).
Proof.
  intros settings w view o st m. split; [reflexivity|].
  apply (sync_stringify_failure_propagates view m st o (UserError "refused"));
    [reflexivity | reflexivity | vm_compute; reflexivity | reflexivity].
Defined.

(** X5.  Under the asynchronous method, when [stringify] throws at a
    mutation, the mutation still returns the outcome of the assignment or
    deletion, with the object changed; no write is started and no call is
    made on the file system, and the error is not caught: it rejects the
    promise [saveAsync] returned, which nobody handles.  The same holds
    when the timer of the lazy method runs [saveAsync]. *)
Theorem async_stringify_failure_is_unhandled view m st o e :
  content (self view) = Ref (target view) ->
  heap (mem st) !! target view = Some o ->
  stringify (self view) (snd (apply_mutation m o)) = Throw e ->
  (save (self view) = the_saveAsync ->
     mutate view m st
     = (Ok (fst (apply_mutation m o)),
        with_mem (reject e (store (target view) (snd (apply_mutation m o)) (mem st))) st))
  /\ saveAsync (self view) (store (target view) (snd (apply_mutation m o)) (mem st))
     = reject e (store (target view) (snd (apply_mutation m o)) (mem st)).
Proof.
  intros Hc Ho Ht.
  assert (Hsave : saveAsync (self view)
                    (store (target view) (snd (apply_mutation m o)) (mem st))
                  = reject e (store (target view) (snd (apply_mutation m o)) (mem st))).
  { unfold saveAsync, stringify_content. rewrite Hc. simpl.
    by rewrite lookup_insert_eq, Ht. }
  split; [|done]. intros Hs.
  rewrite (mutate_eq _ _ _ _ Ho).
  unfold bind, call_save. rewrite Hs. simpl. by rewrite Hsave.
Qed.

Lemma async_stringify_failure_is_unhandled_witness :
  let settings := formatted refusing async false in
  let w := booting (saved (JSON.js "{'count':0}")) [] in
  let view := view_at 2 1 config settings in
  let o := literal [("count", VNum 0)] in
  let st := start (after (wrap 1 config settings) w) in
  let m := Remove "count" in
  wrap 1 config settings w = (Ok view, mem st)
  /\ mutate view m st
     = (Ok true, with_mem (reject (UserError "refused")
                             (store 2 (snd (apply_mutation m o)) (mem st))) st).
Proof.
  intros settings w view o st m. split; [reflexivity|].
  destruct (async_stringify_failure_is_unhandled view m st o (UserError "refused"))
    as [H _]; [reflexivity | vm_compute; reflexivity | reflexivity |].
  exact (H eq_refl).
Defined.

(** ** Construction: further cases *)

(** X6.  When the path names a directory, [existsSync] answers true, the
    constructor tries to read it and the construction fails with EISDIR:
    no view, nothing written, memory as it was. *)
Theorem directory_at_path_fails tgt p settings w :
  stat (fs w) p = Some Dir ->
  wrap tgt p settings w
  = (Throw (IOError EISDIR), log_call (ReadFileSync p) (log_call (ExistsSync p) w)).
Proof.
  intros Hs. rewrite wrap_eq. unfold construct, bind.
  unfold existsSync at 1. unfold exists_at. rewrite Hs.
  rewrite andb_false_r. simpl. unfold read_file. by rewrite Hs.
Qed.

Lemma directory_at_path_fails_witness :
  fst (wrap 1 ["home"] no_settings (booting home [("count", VNum 0)]))
  = Throw (IOError EISDIR).
Proof.
  rewrite (directory_at_path_fails 1 ["home"] no_settings
             (booting home [("count", VNum 0)])); [reflexivity|].
  vm_compute. reflexivity.
Defined.




(** X8.  A construction that fails can leave a directory behind: with
    [recursive] set, no file at the path and the parent directory missing
    under a directory that is there, the parent is made first; when
    [stringify] then throws, the construction throws that error, no file
    was written, and the new directory stays. *)
Theorem failed_construction_keeps_new_directory tgt p settings w o e :
  recursive_of settings = true ->
  exists_at (fs w) p = false ->
  stat (fs w) (dirname p) = None ->
  stat (fs w) (dirname (dirname p)) = Some Dir ->
  dirname (dirname p) ∉ readonly (fs w) ->
  heap w !! tgt = Some o ->
  stringify_of settings o = Throw e ->
  exists w',
    wrap tgt p settings w = (Throw e, w')
    /\ stat (fs w') (dirname p) = Some Dir
    /\ stat (fs w') p = None
    /\ heap w' = heap w.
Proof.
  intros Hr He Hparent Hgrand Hro Ho Ht.
  assert (Hp : p ≠ []) by (intros ->; discriminate).
  assert (Hd : dirname p ≠ []) by (intros Heq; rewrite Heq in Hparent; discriminate).
  assert (Hstat : stat (fs w) p = None)
    by (unfold exists_at in He; by destruct (stat (fs w) p)).
  rewrite wrap_eq. unfold construct, bind. unfold existsSync at 1.
  rewrite He. simpl. rewrite Hr. simpl.
  unfold exists_at. rewrite Hparent. simpl.
  unfold mkdirSync, mkdir. simpl. rewrite Hparent, Hgrand.
  rewrite decide_False by done.
  unfold stringify_content. simpl. rewrite Ho, Ht.
  eexists. split; [reflexivity|]. simpl.
  split; [by apply stat_put|]. split; [|done].
  rewrite stat_put_ne by by apply dirname_shorter. done.
Qed.

Lemma failed_construction_keeps_new_directory_witness :
  let settings := formatted refusing sync true in
  let w := booting home [("count", VNum 0)] in
  exists w',
    wrap 1 ["home"; "app"; "config.json"] settings w = (Throw (UserError "refused"), w')
    /\ stat (fs w') ["home"; "app"] = Some Dir
    /\ stat (fs w') ["home"; "app"; "config.json"] = None
    /\ heap w' = heap w.
Proof.
  intros settings w.
  apply (failed_construction_keeps_new_directory 1 ["home"; "app"; "config.json"]
           settings w (literal [("count", VNum 0)]) (UserError "refused"));
    try (vm_compute; reflexivity).
  vm_compute. set_solver.
Defined.

(** ** Opening a saved file again *)

(** X9.  What a synchronous mutation saved is what a later construction
    on the same path starts from: after a sequence of mutations that
    returned, the file holds the text of the live object, and when the
    codec parses that text to an object, [wrap] on the state reached
    succeeds, makes a new object with the parsed fields and reads and
    writes nothing else. *)
Theorem reopening_reads_last_save tgt tgt' p settings w view w1 ms m st0 st :
  wrap tgt p settings w = (Ok view, w1) ->
  method_of settings = the_saveSync ->
  mutate_all view (ms ++ [m]) st0 = (Ok tt, st) ->
  exists o text,
    live (self view) (mem st) = Some o
    /\ stringify_of settings o = Ok text
    /\ forall fields,
         parse_of settings text = Ok (VObject fields) ->
         exists view' w',
           wrap tgt' p settings (mem st) = (Ok view', w')
           /\ live (self view') w' = Some (literal fields)
           /\ live (self view) w' = Some o
           /\ fs w' = fs (mem st).
Proof.
  intros Hw Hs H.
  destruct (wrap_view _ _ _ _ _ _ Hw) as [Hc Hself].
  assert (Hsave : save (self view) = the_saveSync) by (by rewrite Hself).
  assert (Hloc : fileLocation (self view) = p) by (by rewrite Hself).
  assert (Hstr : stringify (self view) = stringify_of settings) by (by rewrite Hself).
  rewrite mutate_all_app in H. unfold bind in H.
  destruct (mutate_all view ms st0) as [[[]|e] st1]; [|discriminate].
  simpl in H. unfold bind in H.
  destruct (mutate view m st1) as [[b|e] st2] eqn:Hm; [|discriminate].
  injection H as <-.
  destruct (sync_mutation_writes _ _ _ _ _ Hsave Hc Hm) as (o & text & Hl & Ht & Hf).
  exists o, text. rewrite <- Hstr. split; [done|]. split; [done|].
  intros fields Hp.
  assert (Hfile : stat (fs (mem st2)) p = Some (File text)).
  { unfold file_text in Hf. rewrite Hloc in Hf.
    by destruct (stat (fs (mem st2)) p) as [[?|]|]; simplify_eq. }
  rewrite wrap_eq, (construct_existing _ _ _ _ _ Hfile).
  unfold bind, call. rewrite Hp. simpl.
  eexists _, _. split; [reflexivity|]. simpl.
  split; [unfold live; simpl; apply lookup_insert_eq|]. split; [|done].
  unfold live in *. rewrite Hc in *. simpl.
  rewrite lookup_insert_ne; [done|].
  intros Heq. pose proof (is_fresh (dom (heap (mem st2)))) as Hfr.
  rewrite Heq in Hfr. apply Hfr. apply elem_of_dom. by exists o.
Qed.

Lemma reopening_reads_last_save_witness :
  let view := view_of 1 config no_settings in
  let w := booting home [("count", VNum 0)] in
  let w1 := after (wrap 1 config no_settings) w in
  let st := after (mutate_all view [Assign "count" (VNum 1); Assign "name" (VStr "main")])
                  (start w1) in
  exists view' w',
    wrap 1 config no_settings (mem st) = (Ok view', w')
    /\ live (self view') w' = Some (literal [("count", VNum 1); ("name", VStr "main")]).
Proof.
  intros view w w1 st.
  destruct (reopening_reads_last_save 1 1 config no_settings w view w1
              [Assign "count" (VNum 1)] (Assign "name" (VStr "main")) (start w1) st)
    as (o & text & Hl & Ht & Hre);
    [reflexivity | reflexivity | vm_compute; reflexivity |].
  assert (Ho : o = literal [("count", VNum 1); ("name", VStr "main")]).
  { vm_compute in Hl. by injection Hl as <-. }
  subst o.
  assert (Htext : text = JSON.js "{'count':1,'name':'main'}").
  { vm_compute in Ht. injection Ht as <-. vm_compute. reflexivity. }
  subst text.
  destruct (Hre [("count", VNum 1); ("name", VStr "main")]) as (view' & w' & H1 & H2 & _);
    [vm_compute; reflexivity|].
  exists view', w'. split; [exact H1|exact H2].
Defined.

(** ** The lazy method at work *)

Lemma store_store l o1 o2 w : store l o2 (store l o1 w) = store l o2 w.
Proof. unfold store, set_heap. simpl. by rewrite insert_insert_eq. Qed.

(** One mutation under the lazy method, made before the pending timer is
    due: the object changes, the timer moves, and that is all. *)
Lemma lazy_mutation_step view st o m t :
  save (self view) = the_timerCall ->
  heap (mem st) !! target view = Some o ->
  armed (queue st) = []
  \/ (exists x, armed (queue st) = [x] /\ timeout st = Some (timer_id x) /\ t < deadline x) ->
  now (queue st) <= t ->
  let st1 := after (mutate view m) (elapse t st) in
  mem st1 = store (target view) (snd (apply_mutation m o)) (mem st)
  /\ pending (saveAsync (self view)) (t + timerDelay (self view)) (timeout st1) (queue st1)
  /\ now (queue st1) = t
  /\ fired (queue st1) = fired (queue st).
Proof.
  intros Hs Ho Harmed Hnow st1. unfold st1.
  assert (Hnone : next_due t (armed (queue st)) = None).
  { destruct Harmed as [->|(x & -> & _ & Hlt)]; [done|].
    by apply next_due_single_later. }
  rewrite (elapse_none_due _ _ Hnone).
  rewrite (mutate_after _ _ _ o) by done. simpl.
  unfold after, call_save. rewrite Hs. simpl. unfold timerCall. simpl.
  assert (Hone : armed (wait t (queue st)) = []
                 \/ (exists y, armed (wait t (queue st)) = [y]
                               /\ timeout st = Some (timer_id y))).
  { destruct Harmed as [H|(x & H & Hto & _)]; [by left|right; by exists x]. }
  destruct (trigger_rearms (timerDelay (self view)) (saveAsync (self view))
              (timeout st) _ Hone) as (Hp & Hf & Hn).
  simpl in Hp, Hf, Hn.
  assert (Hmax : Nat.max (now (queue st)) t = t) by lia.
  rewrite Hmax in Hp, Hn. done.
Qed.

Lemma apply_all_cons m ms o :
  apply_all (m :: ms) o = apply_all ms (snd (apply_mutation m o)).
Proof. reflexivity. Qed.

(** Through a burst of mutations the memory only sees the object change,
    and one timer stays pending. *)
Lemma lazy_burst_pending view tms st w o t :
  save (self view) = the_timerCall ->
  mem st = store (target view) o w ->
  pending (saveAsync (self view)) (t + timerDelay (self view)) (timeout st) (queue st) ->
  now (queue st) = t ->
  burst (timerDelay (self view)) t (map fst tms) ->
  let st' := mutate_at view tms st in
  let final := List.last (map fst tms) t in
  mem st' = store (target view) (apply_all (map snd tms) o) w
  /\ pending (saveAsync (self view)) (final + timerDelay (self view))
       (timeout st') (queue st')
  /\ now (queue st') = final
  /\ fired (queue st') = fired (queue st).
Proof.
  intros Hs. revert st o t.
  induction tms as [|[t' m] r IH]; intros st o t Hm Hp Hn Hb; cbv zeta.
  - done.
  - destruct Hb as (Hle & Hlt & Hb). simpl in Hle, Hlt, Hb.
    cbn [map fst snd mutate_at]. rewrite last_cons, apply_all_cons.
    assert (Ho : heap (mem st) !! target view = Some o)
      by (rewrite Hm; simpl; apply lookup_insert_eq).
    destruct Hp as (x & Hx & Hto & Hd & Hcb).
    destruct (lazy_mutation_step view st o m t' Hs Ho) as (H1 & H2 & H3 & H4).
    { right. exists x. split; [done|]. split; [done|]. lia. }
    { lia. }
    rewrite Hm, store_store in H1.
    destruct (IH _ _ _ H1 H2 H3 Hb) as (G1 & G2 & G3 & G4).
    split; [done|]. split; [done|]. split; [done|]. by rewrite G4.
Qed.

(** X10.  The lazy method saves a burst once.  Mutations made through
    the view at instants each less than the delay after the one before,
    starting with no timer armed: until the delay has passed after the
    last of them the memory only sees the object change (nothing is
    written, no write is started); when the delay has passed, [saveAsync]
    has run exactly once, on the object as it is after the whole burst, so
    one write is started, carrying the text of that object. *)
Theorem lazy_burst_saves_once view st o t1 m1 tms :
  save (self view) = the_timerCall ->
  content (self view) = Ref (target view) ->
  heap (mem st) !! target view = Some o ->
  armed (queue st) = [] ->
  now (queue st) <= t1 ->
  burst (timerDelay (self view)) t1 (map fst tms) ->
  let st' := mutate_at view ((t1, m1) :: tms) st in
  let final := List.last (map fst tms) t1 in
  let o' := apply_all (m1 :: map snd tms) o in
  mem st' = store (target view) o' (mem st)
  /\ (forall t, t < final + timerDelay (self view) -> mem (elapse t st') = mem st')
  /\ (forall t, final + timerDelay (self view) <= t ->
        mem (elapse t st') = saveAsync (self view) (mem st')
        /\ exists id, fired (queue (elapse t st'))
                      = fired (queue st) ++ [(final + timerDelay (self view), id)])
  /\ (forall t text,
        final + timerDelay (self view) <= t ->
        stringify (self view) o' = Ok text ->
        mem (elapse t st')
        = writeFile (fileLocation (self view)) text (store (target view) o' (mem st))).
Proof.
  intros Hs Hc Ho Ha Hnow Hb st' final o'.
  subst st'. cbn [mutate_at].
  set (st' := mutate_at view tms (after (mutate view m1) (elapse t1 st))).
  destruct (lazy_mutation_step view st o m1 t1 Hs Ho (or_introl Ha) Hnow)
    as (H1 & H2 & H3 & H4).
  destruct (lazy_burst_pending view tms _ (mem st) _ t1 Hs H1 H2 H3 Hb)
    as (G1 & G2 & G3 & G4).
  fold st' in G1, G2, G3, G4. fold final in G2, G3.
  change (apply_all (map snd tms) (snd (apply_mutation m1 o))) with o' in G1.
  rewrite H4 in G4.
  destruct G2 as (x & Hx & Hto & Hd & Hcb).
  assert (Hrun : forall t, final + timerDelay (self view) <= t ->
            mem (elapse t st') = saveAsync (self view) (mem st')).
  { intros t Ht. rewrite (elapse_one_due _ _ _ Hx) by lia. simpl. by rewrite Hcb. }
  split; [done|]. split; [|split; [|]].
  - intros t Ht. rewrite elapse_none_due; [done|].
    rewrite Hx. apply next_due_single_later. lia.
  - intros t Ht. split; [by apply Hrun|].
    rewrite (elapse_one_due _ _ _ Hx) by lia. simpl.
    exists (timer_id x). rewrite G4, G3, Hd. do 3 f_equal. lia.
  - intros t text Ht Htext. rewrite (Hrun t Ht), G1.
    unfold saveAsync, stringify_content. rewrite Hc. simpl.
    by rewrite lookup_insert_eq, Htext.
Qed.

Lemma lazy_burst_saves_once_witness :
  let view := view_of 1 config (saving (millis 50)) in
  let st := start (after (wrap 1 config (saving (millis 50)))
                     (booting home [("count", VNum 0)])) in
  let st' := mutate_at view [(0, Assign "count" (VNum 1));
                             (10, Assign "count" (VNum 2));
                             (20, Remove "count")] st in
  mem (elapse 69 st') = mem st'
  /\ inflight (mem (elapse 69 st')) = []
  /\ inflight (mem (elapse 70 st')) = [(config, "{}")].
Proof.
  intros view st st'.
  destruct (lazy_burst_saves_once view st (literal [("count", VNum 0)]) 0
              (Assign "count" (VNum 1))
              [(10, Assign "count" (VNum 2)); (20, Remove "count")])
    as (Hmem & Hbefore & _ & Hafter);
    [reflexivity | reflexivity | vm_compute; reflexivity | reflexivity
    | cbv; lia | cbv; lia |].
  fold st' in Hmem, Hbefore, Hafter.
  split; [apply Hbefore; cbv; lia|]. split.
  - rewrite Hbefore by (cbv; lia). rewrite Hmem. reflexivity.
  - rewrite (Hafter 70 "{}") by first [cbv; lia | vm_compute; reflexivity].
    reflexivity.
Defined.

(** ** The save timer over whole runs *)

Lemma call_save_queue this st :
  (save this = the_timerCall -> after (call_save this) st = timerCall this st)
  /\ (save this ≠ the_timerCall ->
        queue (after (call_save this) st) = queue st
        /\ timeout (after (call_save this) st) = timeout st).
Proof.
  unfold after, call_save. split.
  - by intros ->.
  - intros Hs. destruct (save this); [| |done]; simpl; [|done].
    unfold lift. by destruct (saveSync this (mem st)).
Qed.

Lemma timerCall_keeps_one this st :
  one_save_timer this st ->
  one_save_timer this (timerCall this st)
  /\ length (armed (queue (timerCall this st))) = 1
  /\ fired (queue (timerCall this st)) = fired (queue st).
Proof.
  intros Hone.
  destruct (timerCall_arms this st)
    as (x & Hto & Harmed & Hd & Hcb & Hmem & Hnow & Hfired).
  assert (Hx : armed (queue (timerCall this st)) = [x]).
  { rewrite Harmed. destruct Hone as [Hq|(y & Hq & Hy & _)].
    - destruct (timeout st); simpl; by rewrite Hq.
    - rewrite Hy. simpl. rewrite Hq. by rewrite clear_single. }
  split; [right; by exists x|]. by rewrite Hx.
Qed.

(** One event keeps the queue to the one timer; a timer that runs moves
    from the armed ones to the record of what ran, and only a mutation
    can add one. *)
Lemma step_keeps_one_timer view e st :
  one_save_timer (self view) st ->
  one_save_timer (self view) (step view e st)
  /\ length (fired (queue (step view e st))) + length (armed (queue (step view e st)))
     <= length (fired (queue st)) + length (armed (queue st))
        + (if is_mutation e then 1 else 0)
  /\ (save (self view) ≠ the_timerCall ->
        armed (queue st) = [] ->
        armed (queue (step view e st)) = []
        /\ fired (queue (step view e st)) = fired (queue st)).
Proof.
  intros Hone. destruct e as [m|t|i]; cbn [step is_mutation].
  - destruct (heap (mem st) !! target view) as [o|] eqn:Ho.
    + rewrite (mutate_after _ _ _ _ Ho).
      set (st1 := with_mem _ st).
      assert (Hone1 : one_save_timer (self view) st1) by done.
      destruct (call_save_queue (self view) st1) as [Hlazy Hother].
      assert (Hdec : save (self view) = the_timerCall
                     \/ save (self view) ≠ the_timerCall)
        by (destruct (save (self view)); [right|right|left]; done).
      destruct Hdec as [Hs|Hs].
      * rewrite (Hlazy Hs).
        destruct (timerCall_keeps_one _ _ Hone1) as (H1 & H2 & H3).
        split; [done|]. split; [|done].
        rewrite H2, H3. simpl. lia.
      * destruct (Hother Hs) as [Hq Hto].
        unfold one_save_timer. rewrite Hq, Hto.
        split; [done|]. split; [simpl; lia|done].
    + unfold after. rewrite (mutate_not_object _ _ _ Ho). simpl.
      split; [done|]. split; [lia|done].
  - destruct Hone as [Hq|(x & Hq & Hto & Hcb)].
    + rewrite elapse_none_due by by rewrite Hq.
      unfold one_save_timer, wait. cbn [queue timeout armed fired].
      split; [by left|]. split; [lia|done].
    + destruct (decide (deadline x <= t)) as [Hd|Hd].
      * rewrite (elapse_one_due _ _ _ Hq Hd).
        unfold one_save_timer, wait, fire. cbn [queue timeout armed fired].
        rewrite Hq, clear_single, length_app. simpl.
        split; [by left|]. split; [lia|]. intros _ Hnil. by rewrite Hnil in Hq.
      * rewrite elapse_none_due
          by (rewrite Hq; apply next_due_single_later; lia).
        unfold one_save_timer, wait. cbn [queue timeout armed fired].
        split; [right; by exists x|]. split; [lia|done].
  - unfold settled, one_save_timer, with_mem. cbn [queue timeout].
    split; [done|]. split; [lia|done].
Qed.

Lemma run_app view es1 es2 st :
  run view (es1 ++ es2) st = run view es2 (run view es1 st).
Proof. unfold run. by rewrite fold_left_app. Qed.

Lemma run_keeps_one_timer view es st :
  one_save_timer (self view) st ->
  one_save_timer (self view) (run view es st)
  /\ length (fired (queue (run view es st))) + length (armed (queue (run view es st)))
     <= length (fired (queue st)) + length (armed (queue st))
        + length (filter is_mutation es)
  /\ (save (self view) ≠ the_timerCall ->
        armed (queue st) = [] ->
        armed (queue (run view es st)) = []
        /\ fired (queue (run view es st)) = fired (queue st)).
Proof.
  revert st. induction es as [|e r IH]; intros st Hone.
  - simpl. split; [done|]. split; [lia|done].
  - change (run view (e :: r) st) with (run view r (step view e st)).
    destruct (step_keeps_one_timer view e st Hone) as (H1 & H2 & H3).
    destruct (IH _ H1) as (G1 & G2 & G3).
    split; [done|]. split.
    + rewrite filter_cons. destruct e; simpl in *; lia.
    + intros Hs Hnil. destruct (H3 Hs Hnil) as [K1 K2].
      destruct (G3 Hs K1) as [L1 L2]. split; [done|]. by rewrite L2.
Qed.

(** X11.  A view never has more than one save timer under way.  From the
    state a view starts in, after any sequence of mutations through the
    view, of waits and of writes settling, the timer queue holds nothing
    or exactly one timer: the one the closure of [timerCall] remembers,
    whose callback is [saveAsync]. *)
Theorem at_most_one_save_timer view es w :
  one_save_timer (self view) (run view es (start w))
  /\ length (armed (queue (run view es (start w)))) <= 1.
Proof.
  destruct (run_keeps_one_timer view es (start w)) as (H & _); [by left|].
  split; [done|].
  destruct H as [->|(x & -> & _)]; simpl; lia.
Qed.

(** X12.  The timer never saves more often than the object was mutated.
    From the state a view starts in, after any sequence of mutations, waits
    and writes settling, the timers that have run and the one that may be
    pending are together no more than the mutations made; under the
    synchronous and the asynchronous method no timer is ever armed or
    run. *)
Theorem timer_saves_at_most_once_per_mutation view es w :
  length (fired (queue (run view es (start w))))
  + length (armed (queue (run view es (start w))))
  <= length (filter is_mutation es)
  /\ (save (self view) ≠ the_timerCall ->
        armed (queue (run view es (start w))) = []
        /\ fired (queue (run view es (start w))) = []).
Proof.
  destruct (run_keeps_one_timer view es (start w)) as (_ & H & Hn); [by left|].
  split; [exact H|]. intros Hs. by apply Hn.
Qed.
